(** * JSON Snippet Compiler: the snippet registry, the reorder engine,
      the serializer, the download file name and the rich-text converter
      of [index.tsx], embedded as Rocq functions, with the properties the
      specification states about them. *)

From Stdlib Require Import String Ascii List ZArith NArith Bool Lia Permutation.
Import ListNotations.
Open Scope Z_scope.

(* ===================================================================== *)
(** ** JavaScript strings *)
(* ===================================================================== *)

(** A JavaScript string is a sequence of UTF-16 code units. *)
Definition jschar := N.
Definition jsstring := list jschar.

(** ASCII literals of the source, written as Rocq strings. *)
Definition js (s : string) : jsstring :=
  map N_of_ascii (list_ascii_of_string s).

Definition LF : jschar := 10%N.

Definition jschar_eqb (a b : jschar) : bool := N.eqb a b.

Fixpoint jsstring_eqb (a b : jsstring) : bool :=
  match a, b with
  | [], [] => true
  | x :: a', y :: b' => jschar_eqb x y && jsstring_eqb a' b'
  | _, _ => false
  end.

(** The characters matched by [\s] in a regular expression, which are also
    the ones [String.prototype.trim] strips: WhiteSpace and LineTerminator
    of ECMAScript. *)
Definition is_space (c : jschar) : bool :=
  ((9 <=? c) && (c <=? 13) || (c =? 32) || (c =? 160) || (c =? 5760)
   || (8192 <=? c) && (c <=? 8202) || (c =? 8232) || (c =? 8233)
   || (c =? 8239) || (c =? 8287) || (c =? 12288) || (c =? 65279))%N.

(** [s.trimStart()] *)
Fixpoint trimStart (s : jsstring) : jsstring :=
  match s with
  | [] => []
  | c :: rest => if is_space c then trimStart rest else s
  end.

(** [s.trim()]: the trailing white space is the leading white space of the
    reversed string. *)
Definition trim (s : jsstring) : jsstring :=
  rev (trimStart (rev (trimStart s))).

(** [s.split(sep)] for a one-character separator: the pieces between the
    occurrences of [sep]; a string without [sep] is its own only piece. *)
Fixpoint split (sep : jschar) (s : jsstring) : list jsstring :=
  match s with
  | [] => [[]]
  | c :: rest =>
      if jschar_eqb c sep then [] :: split sep rest
      else match split sep rest with
           | piece :: pieces => (c :: piece) :: pieces
           | [] => [[c]]
           end
  end.

(** A template literal prints a missing value ([undefined]) as the word
    itself. *)
Definition template_hole (v : option jsstring) : jsstring :=
  match v with
  | Some s => s
  | None => js "undefined"
  end.

(* ===================================================================== *)
(** ** JavaScript arrays: [Array.prototype.splice] *)
(* ===================================================================== *)

(** The position a [start] argument designates in an array of length
    [len]: a negative one counts from the end, and the result is clamped
    to the array. *)
Definition actual_start (len start : Z) : Z :=
  if start <? 0 then Z.max (len + start) 0 else Z.min start len.

Section Splice.
Context {A : Type}.

(** [arr.splice(start, deleteCount, ...items)] following ECMAScript:
    a negative [start] counts from the end, both numbers are clamped to
    the array.  The result is the pair of the removed elements (the
    value of the call) and the array after the call. *)
Definition splice (arr : list A) (start deleteCount : Z) (items : list A)
  : list A * list A :=
  let len := Z.of_nat (length arr) in
  let actualStart := actual_start len start in
  let actualDeleteCount :=
    Z.min (Z.max deleteCount 0) (len - actualStart) in
  let i := Z.to_nat actualStart in
  let n := Z.to_nat actualDeleteCount in
  (firstn n (skipn i arr),
   firstn i arr ++ items ++ skipn (i + n) arr).

(** Removal and insertion at a position of the list, the terms in which
    the specification describes a move. *)
Definition remove_at (i : nat) (l : list A) : list A :=
  firstn i l ++ skipn (S i) l.

Definition insert_at (i : nat) (x : A) (l : list A) : list A :=
  firstn i l ++ x :: skipn i l.
End Splice.

(* ===================================================================== *)
(** ** Types *)
(* ===================================================================== *)

Inductive Language := English | Tamil.

Record MetaData := {
  meta_title : jsstring;
  meta_language : Language;
  meta_date : jsstring;
  meta_youtubeUrl : jsstring;
  meta_pdfUrl : jsstring;
  meta_imageUrl : jsstring
}.

Record VerseData := { verse_reference : jsstring; verse_text : jsstring }.
Record ParagraphData := { paragraph_content : jsstring }.
Record PrayerData := { prayer_title : jsstring; prayer_text : jsstring }.
Record LessonData := { lesson_content : jsstring }.

(** [SnippetType = keyof SnippetDataMap].  TypeScript erases the union at
    run time, and the serializer keeps a [default] branch for a tag outside
    it: [unrecognized] stands for such a tag. *)
Inductive SnippetType :=
  meta | verse | paragraph | prayer | lesson | unrecognized.

(** [SnippetDataMap[T]]; the table of default payloads has no entry for a
    tag outside the union, so its payload is [undefined]. *)
Definition SnippetDataMap (T : SnippetType) : Type :=
  match T with
  | meta => MetaData
  | verse => VerseData
  | paragraph => ParagraphData
  | prayer => PrayerData
  | lesson => LessonData
  | unrecognized => unit
  end.

(** [Snippet<T> = { id: number; type: T; data: SnippetDataMap[T] }] *)
Record Snippet := {
  id : Z;
  type : SnippetType;
  data : SnippetDataMap type
}.

Definition SnippetType_eqb (a b : SnippetType) : bool :=
  match a, b with
  | meta, meta | verse, verse | paragraph, paragraph
  | prayer, prayer | lesson, lesson | unrecognized, unrecognized => true
  | _, _ => false
  end.

Definition is_meta (s : Snippet) : bool := SnippetType_eqb (type s) meta.

(* ===================================================================== *)
(** ** The snippet registry *)
(* ===================================================================== *)

(** The table of default payloads in [handleAddSnippet]. *)
Definition default_data (T : SnippetType) : SnippetDataMap T :=
  match T with
  | meta => {| meta_title := []; meta_language := English; meta_date := [];
               meta_youtubeUrl := []; meta_pdfUrl := []; meta_imageUrl := [] |}
  | verse => {| verse_reference := []; verse_text := [] |}
  | paragraph => {| paragraph_content := [] |}
  | prayer => {| prayer_title := js "Prayer"; prayer_text := [] |}
  | lesson => {| lesson_content := [] |}
  | unrecognized => tt
  end.

(** The record [handleAddSnippet] builds; [now] is the value [Date.now()]
    returns at the call. *)
Definition newSnippet (now : Z) (T : SnippetType) : Snippet :=
  {| id := now; type := T; data := default_data T |}.

(** [handleAddSnippet]: the state update
    [prev => type === 'meta' ? [newSnippet, ...prev] : [...prev, newSnippet]]. *)
Definition handleAddSnippet (now : Z) (T : SnippetType) (prev : list Snippet)
  : list Snippet :=
  if SnippetType_eqb T meta then newSnippet now T :: prev
  else prev ++ [newSnippet now T].

(** [handleDeleteSnippet]: [prev.filter(s => s.id !== id)]. *)
Definition handleDeleteSnippet (i : Z) (prev : list Snippet) : list Snippet :=
  filter (fun s => negb (id s =? i)) prev.

(** [metaExists = snippets.some(snippet => snippet.type === 'meta')] *)
Definition metaExists (snippets : list Snippet) : bool :=
  existsb is_meta snippets.

(** The buttons of [SnippetSelector].  The Meta button carries
    [disabled={metaExists}]: a disabled button delivers no click, so its
    [onClick] does not run; every other button calls [onAddSnippet]. *)
Definition SnippetSelector_click
    (onAddSnippet : SnippetType -> list Snippet -> list Snippet)
    (button : SnippetType) (snippets : list Snippet) : list Snippet :=
  if SnippetType_eqb button meta && metaExists snippets then snippets
  else onAddSnippet button snippets.

(** What the user can do to the registry through the page: press a button
    of the selector, at some clock reading, or the delete button of a
    record. *)
Inductive UserAction :=
| PressAdd (now : Z) (button : SnippetType)
| PressDelete (i : Z).

Definition act (snippets : list Snippet) (a : UserAction) : list Snippet :=
  match a with
  | PressAdd now button =>
      SnippetSelector_click (handleAddSnippet now) button snippets
  | PressDelete i => handleDeleteSnippet i snippets
  end.

Definition count_meta (snippets : list Snippet) : nat :=
  length (filter is_meta snippets).

(** One request made to the registry over its lifetime: an add, with the
    clock reading [Date.now()] gives at that moment, or a delete. *)
Inductive Request :=
| Add (now : Z) (T : SnippetType)
| Delete (i : Z).

(** The registry together with the log of every id it has handed out, the
    oldest last. *)
Record Registry := {
  records : list Snippet;
  assigned : list Z
}.

Definition empty_registry : Registry := {| records := []; assigned := [] |}.

Definition request (r : Registry) (q : Request) : Registry :=
  match q with
  | Add now T =>
      {| records := handleAddSnippet now T (records r);
         assigned := id (newSnippet now T) :: assigned r |}
  | Delete i =>
      {| records := handleDeleteSnippet i (records r);
         assigned := assigned r |}
  end.

Definition requests (qs : list Request) (r : Registry) : Registry :=
  fold_left request qs r.

(** The clock readings of the add requests of a sequence, the latest
    first. *)
Fixpoint clock_readings (qs : list Request) : list Z :=
  match qs with
  | [] => []
  | Add now _ :: qs' => clock_readings qs' ++ [now]
  | Delete _ :: qs' => clock_readings qs'
  end.

(** The ids of the records of the registry are distinct, and each is in
    the log of assigned ids. *)
Definition ids_consistent (r : Registry) : Prop :=
  NoDup (map id (records r)) /\ incl (map id (records r)) (assigned r).

(* ===================================================================== *)
(** ** The reorder engine *)
(* ===================================================================== *)

(** The state of [App] the drag handlers read and write: the snippet list,
    the two advisory indices, the ref that holds the dragged index, and the
    [dragging-active] class of the document body. *)
Record App := {
  snippets : list Snippet;
  draggedIndex : option Z;
  dragOverIndex : option Z;
  dragItemRef : option Z;
  dragging_active : bool
}.

Definition initial_App : App :=
  {| snippets := []; draggedIndex := None; dragOverIndex := None;
     dragItemRef := None; dragging_active := false |}.

Definition handleDragStart (st : App) (index : Z) : App :=
  {| snippets := snippets st;
     draggedIndex := Some index;
     dragOverIndex := dragOverIndex st;
     dragItemRef := Some index;
     dragging_active := true |}.

Definition handleDragEnter (st : App) (index : Z) : App :=
  match dragItemRef st with
  | None => st
  | Some _ =>
      {| snippets := snippets st;
         draggedIndex := draggedIndex st;
         dragOverIndex := Some index;
         dragItemRef := dragItemRef st;
         dragging_active := dragging_active st |}
  end.

(** [handleDragOver] only calls [preventDefault]. *)
Definition handleDragOver (st : App) : App := st.

Definition handleDragEnd (st : App) : App :=
  {| snippets := snippets st;
     draggedIndex := None;
     dragOverIndex := None;
     dragItemRef := None;
     dragging_active := false |}.

(** The events of a gesture other than the drop. *)
Inductive DragEvent :=
| DragStart (index : Z)
| DragEnter (index : Z)
| DragOver
| DragEnd.

Definition drag_step (st : App) (e : DragEvent) : App :=
  match e with
  | DragStart i => handleDragStart st i
  | DragEnter i => handleDragEnter st i
  | DragOver => handleDragOver st
  | DragEnd => handleDragEnd st
  end.

Definition drag_steps (es : list DragEvent) (st : App) : App :=
  fold_left drag_step es st.

(** [const [reorderedItem] = removed]: the first element, [undefined]
    when there is none. *)
Definition first_or_undefined {A : Type} (removed : list (option A))
  : option A :=
  match removed with
  | x :: _ => x
  | [] => None
  end.

(** [handleDrop]: the array the snippet list is after the call, for the
    dragged index held in the ref ([current]) and the list [prev]; the
    state update reads the ref again, which nothing writes in between.  An
    array slot is [Some] record, or [None] for the [undefined] JavaScript
    stores when the first [splice] removed nothing. *)
Definition handleDrop (current : option Z) (index : Z) (prev : list Snippet)
  : list (option Snippet) :=
  match current with
  | None => map Some prev
  | Some source =>
      if source =? index then map Some prev
      else
        let '(removed, newSnippets) := splice (map Some prev) source 1 [] in
        let reorderedItem := first_or_undefined removed in
        snd (splice newSnippets index 0 [reorderedItem])
  end.

(** The position the dragged index designates in the list. *)
Definition source_position (prev : list Snippet) (source : Z) : nat :=
  Z.to_nat (actual_start (Z.of_nat (length prev)) source).

(** The position the drop index designates in the list without the
    dragged element. *)
Definition target_position (prev : list Snippet) (index : Z) : nat :=
  Z.to_nat (actual_start (Z.of_nat (length prev) - 1) index).

(* ===================================================================== *)
(** ** The serializer *)
(* ===================================================================== *)

(** An object of the output: its properties in insertion order; every
    property value the serializer emits is a string. *)
Definition JsObject := list (jsstring * jsstring).

Definition Language_string (l : Language) : jsstring :=
  match l with
  | English => js "English"
  | Tamil => js "Tamil"
  end.

(** [...snippet.data] for a Meta payload: its properties in the order the
    default payload creates them. *)
Definition spread_meta (d : MetaData) : JsObject :=
  [ (js "title", meta_title d);
    (js "language", Language_string (meta_language d));
    (js "date", meta_date d);
    (js "youtubeUrl", meta_youtubeUrl d);
    (js "pdfUrl", meta_pdfUrl d);
    (js "imageUrl", meta_imageUrl d) ].

(** The callback of [snippets.map] in the serialization effect; [None] is
    the [null] of the [default] branch. *)
Definition serialize_snippet (s : Snippet) : option JsObject :=
  match s with
  | Build_Snippet _ meta d =>
      Some ((js "type", js "meta") :: spread_meta d)
  | Build_Snippet _ verse d =>
      Some [ (js "type", js "verse");
             (js "reference", verse_reference d);
             (js "text", verse_text d) ]
  | Build_Snippet _ paragraph d =>
      Some [ (js "type", js "paragraph");
             (js "content", paragraph_content d) ]
  | Build_Snippet _ prayer d =>
      Some [ (js "type", js "prayer");
             (js "title", prayer_title d);
             (js "text", prayer_text d) ]
  | Build_Snippet _ lesson d =>
      Some [ (js "type", js "lesson");
             (js "content", lesson_content d) ]
  | Build_Snippet _ unrecognized _ => None
  end.

(** [.filter(Boolean)]: an object is truthy, [null] is not. *)
Fixpoint filter_Boolean {A : Type} (l : list (option A)) : list A :=
  match l with
  | [] => []
  | Some o :: l' => o :: filter_Boolean l'
  | None :: l' => filter_Boolean l'
  end.

(** The array handed to [JSON.stringify]. *)
Definition serialize (snippets : list Snippet) : list JsObject :=
  filter_Boolean (map serialize_snippet snippets).

(* ===================================================================== *)
(** ** The download file name *)
(* ===================================================================== *)

(** The [filename] of [handleDownload].  Nothing in the [try] block
    raises, so its [catch] never runs and is left out. *)
Definition download_filename (snippets : list Snippet) : jsstring :=
  match find is_meta snippets with
  | Some (Build_Snippet _ meta d) =>
      match meta_date d with
      | [] => js "content.json"
      | _ :: _ =>
          let parts := split (N_of_ascii "-"%char) (meta_date d) in
          let year := nth_error parts 0 in
          let month := nth_error parts 1 in
          let day := nth_error parts 2 in
          let formattedDate :=
            template_hole day ++ js "-" ++ template_hole month
              ++ js "-" ++ template_hole year in
          let langCode :=
            match meta_language d with
            | Tamil => js "TA"
            | English => js "EN"
            end in
          formattedDate ++ js "-" ++ langCode ++ js ".json"
      end
  | _ => js "content.json"
  end.

(** A Meta record with a language and a date, its other fields empty. *)
Definition meta_snippet (i : Z) (language : Language) (date : jsstring)
  : Snippet :=
  Build_Snippet i meta
    {| meta_title := []; meta_language := language; meta_date := date;
       meta_youtubeUrl := []; meta_pdfUrl := []; meta_imageUrl := [] |}.

(* ===================================================================== *)
(** ** The document tree *)
(* ===================================================================== *)

(** An element of an HTML document is an HTML element or a foreign one
    (SVG, MathML). *)
Inductive Namespace := HTMLElement | ForeignElement.

(** The nodes [walk] tells apart: text ([nodeType] 3), elements
    ([nodeType] 1) and everything else (comments and the like). *)
#[warnings="-register-all"]
Inductive Node :=
| Text (textContent : jsstring)
| Element (ns : Namespace) (localName : jsstring) (childNodes : list Node)
| OtherNode.

Definition toUpperCase_char (c : jschar) : jschar :=
  if ((97 <=? c) && (c <=? 122))%N then (c - 32)%N else c.

(** [element.tagName]: the upper-cased name for an HTML element, the name
    as it is for a foreign one. *)
Definition tagName (ns : Namespace) (localName : jsstring) : jsstring :=
  match ns with
  | HTMLElement => map toUpperCase_char localName
  | ForeignElement => localName
  end.

(** Whether a node is matched by the selector ['script, style']. *)
Definition is_script_or_style (n : Node) : bool :=
  match n with
  | Element _ name _ =>
      jsstring_eqb name (js "script") || jsstring_eqb name (js "style")
  | _ => false
  end.

(** [doc.querySelectorAll('script, style').forEach(el => el.remove())]
    seen from a node of the tree: every matching descendant is taken out
    of its parent. *)
Fixpoint remove_script_style (n : Node) : Node :=
  match n with
  | Element ns name children =>
      Element ns name
        ((fix go (l : list Node) : list Node :=
            match l with
            | [] => []
            | c :: l' =>
                if is_script_or_style c then go l'
                else remove_script_style c :: go l'
            end) children)
  | _ => n
  end.

(** Whether no script or style element is left below a node. *)
Fixpoint no_script_style (n : Node) : bool :=
  match n with
  | Element _ _ children =>
      forallb (fun c => negb (is_script_or_style c) && no_script_style c)
        children
  | _ => true
  end.

(* ===================================================================== *)
(** ** The rich-text converter *)
(* ===================================================================== *)

Definition tag_is (tag : jsstring) (name : string) : bool :=
  jsstring_eqb tag (js name).

(** The [switch] of [walk] on the tag name, given the joined rendering of
    the children. *)
Definition walk_element (tag children : jsstring) : jsstring :=
  if tag_is tag "STRONG" || tag_is tag "B" then
    js "**" ++ children ++ js "**"
  else if tag_is tag "EM" || tag_is tag "I" then
    js "*" ++ children ++ js "*"
  else if tag_is tag "P" then
    [LF] ++ children ++ [LF]
  else if tag_is tag "LI" then
    js "- " ++ trim children ++ [LF]
  else if tag_is tag "UL" || tag_is tag "OL" then
    trim children ++ [LF]
  else if tag_is tag "BR" then
    [LF]
  else children.

Fixpoint walk (node : Node) : jsstring :=
  match node with
  | Text textContent => textContent
  | OtherNode => []
  | Element ns name childNodes =>
      walk_element (tagName ns name) (concat (map walk childNodes))
  end.

(** [\s*\n] at the head of a string, the way a backtracking matcher runs
    it: the star first takes one more white-space character, and only when
    the rest then fails is the line feed matched here.  The result is the
    text after the match. *)
Fixpoint match_spaces_newline (s : jsstring) : option jsstring :=
  match s with
  | [] => None
  | c :: rest =>
      match (if is_space c then match_spaces_newline rest else None) with
      | Some after => Some after
      | None => if jschar_eqb c LF then Some rest else None
      end
  end.

(** [/\n\s*\n/] at the head of a string. *)
Definition match_blank_lines (s : jsstring) : option jsstring :=
  match s with
  | c :: rest => if jschar_eqb c LF then match_spaces_newline rest else None
  | [] => None
  end.

(** [s.replace(/\n\s*\n/g, '\n\n')]: from left to right, a match is
    replaced and the scan resumes after it, another character is copied.
    [fuel] bounds the number of steps. *)
Fixpoint replace_blank_lines_fuel (fuel : nat) (s : jsstring) : jsstring :=
  match fuel with
  | O => s
  | S fuel' =>
      match match_blank_lines s with
      | Some after => LF :: LF :: replace_blank_lines_fuel fuel' after
      | None =>
          match s with
          | [] => []
          | c :: rest => c :: replace_blank_lines_fuel fuel' rest
          end
      end
  end.

Definition replace_blank_lines (s : jsstring) : jsstring :=
  replace_blank_lines_fuel (length s) s.

(** A string that is empty or begins with a character other than white
    space. *)
Definition starts_without_space (s : jsstring) : Prop :=
  match s with
  | [] => True
  | c :: _ => is_space c = false
  end.

(** [htmlToMarkdown].  [parseFromString] is the browser's HTML parser,
    [html => new DOMParser().parseFromString(html, 'text/html').body]: it
    accepts every string and returns the body element of the document. *)
Definition htmlToMarkdown (parseFromString : jsstring -> Node)
    (html : jsstring) : jsstring :=
  match html with
  | [] => []
  | _ :: _ =>
      let body := parseFromString (js "<body>" ++ html ++ js "</body>") in
      let markdown := walk (remove_script_style body) in
      trim (replace_blank_lines markdown)
  end.

(* ===================================================================== *)
(** ** A parser for plain fragments *)
(* ===================================================================== *)

(** A small parser for fragments made of text and of start and end tags
    without attributes, properly nested: on these it builds the tree an
    HTML parser builds.  It serves to run the converter on concrete
    fragments. *)
Module FragmentParser.

Inductive Token :=
| StartTag (name : jsstring)
| EndTag (name : jsstring)
| Characters (text : jsstring).

Definition LT : jschar := 60%N.
Definition GT : jschar := 62%N.
Definition SOLIDUS : jschar := 47%N.

Definition toLowerCase_char (c : jschar) : jschar :=
  if ((65 <=? c) && (c <=? 90))%N then (c + 32)%N else c.

Definition tag_token (inside : jsstring) : Token :=
  match inside with
  | c :: name =>
      if jschar_eqb c SOLIDUS then EndTag (map toLowerCase_char name)
      else StartTag (map toLowerCase_char inside)
  | [] => Characters [LT; GT]
  end.

Definition characters_token (text : jsstring) : list Token :=
  match text with
  | [] => []
  | _ :: _ => [Characters text]
  end.

(** [in_tag] tells whether the scan is between [<] and [>]; [acc] holds
    the characters read since the last token, the latest first. *)
Fixpoint tokenize (s : jsstring) (in_tag : bool) (acc : jsstring)
  : list Token :=
  match s with
  | [] => if in_tag then [Characters (LT :: rev acc)]
          else characters_token (rev acc)
  | c :: rest =>
      if in_tag then
        if jschar_eqb c GT then tag_token (rev acc) :: tokenize rest false []
        else tokenize rest true (c :: acc)
      else
        if jschar_eqb c LT then
          characters_token (rev acc) ++ tokenize rest true []
        else tokenize rest false (c :: acc)
  end.

Definition is_void (name : jsstring) : bool :=
  jsstring_eqb name (js "br").

(** [open] is the stack of open elements, each with the children its
    parent had collected before it; [children] are the children of the
    innermost open element, the latest first. *)
Fixpoint build (tokens : list Token)
    (open : list (jsstring * list Node)) (children : list Node)
  : list Node :=
  match tokens with
  | [] =>
      rev (fold_left
             (fun inner o => Element HTMLElement (fst o) (rev inner) :: snd o)
             open children)
  | Characters text :: tokens' => build tokens' open (Text text :: children)
  | StartTag name :: tokens' =>
      if is_void name then
        build tokens' open (Element HTMLElement name [] :: children)
      else build tokens' ((name, children) :: open) []
  | EndTag _ :: tokens' =>
      match open with
      | (name, siblings) :: open' =>
          build tokens' open'
            (Element HTMLElement name (rev children) :: siblings)
      | [] => build tokens' [] children
      end
  end.

(** The body element of the document of a fragment. *)
Definition parseFromString (html : jsstring) : Node :=
  match build (tokenize html false []) [] [] with
  | [Element HTMLElement name children as body] =>
      if jsstring_eqb name (js "body") then body
      else Element HTMLElement (js "body") [body]
  | nodes => Element HTMLElement (js "body") nodes
  end.

End FragmentParser.

(* ===================================================================== *)
(** ** Updates of a record *)
(* ===================================================================== *)

(** A payload of whatever kind: the argument [data: any] of
    [handleUpdateSnippet]. *)
Definition Payload : Type := {T : SnippetType & SnippetDataMap T}.

(** A record as [handleUpdateSnippet] sees it: the update copies [id] and
    [type] and stores the payload it is given, of the kind of the record
    or not. *)
Record AnySnippet := {
  any_id : Z;
  any_type : SnippetType;
  any_data : Payload
}.

(** A record of the list, seen this way. *)
Definition any (s : Snippet) : AnySnippet :=
  {| any_id := id s; any_type := type s;
     any_data := existT SnippetDataMap (type s) (data s) |}.

(** The record back, when its payload is of its kind. *)
Definition typed (s : AnySnippet) : option Snippet :=
  let (T, d) := any_data s in
  if SnippetType_eqb T (any_type s) then Some (Build_Snippet (any_id s) T d)
  else None.

(** [handleUpdateSnippet]:
    [prev.map(s => s.id === id ? { ...s, data } : s)]. *)
Definition handleUpdateSnippet (i : Z) (new_data : Payload)
    (prev : list AnySnippet) : list AnySnippet :=
  map (fun s =>
         if any_id s =? i then
           {| any_id := any_id s; any_type := any_type s;
              any_data := new_data |}
         else s)
      prev.

(** The [onChange] handlers of the snippet components: each calls
    [onUpdate(snippet.id, { ...snippet.data, field: value })], a payload of
    the kind of the record, made from the payload the record has. *)
Definition onChange (s : Snippet)
    (edit : SnippetDataMap (type s) -> SnippetDataMap (type s))
    (prev : list AnySnippet) : list AnySnippet :=
  handleUpdateSnippet (id s)
    (existT SnippetDataMap (type s) (edit (data s))) prev.

(** The date input of [MetaSnippet]:
    [onUpdate(snippet.id, { ...snippet.data, date: e.target.value })]. *)
Definition set_meta_date (value : jsstring) (d : MetaData) : MetaData :=
  {| meta_title := meta_title d; meta_language := meta_language d;
     meta_date := value; meta_youtubeUrl := meta_youtubeUrl d;
     meta_pdfUrl := meta_pdfUrl d; meta_imageUrl := meta_imageUrl d |}.

(** The language select of [MetaSnippet]. *)
Definition set_meta_language (value : Language) (d : MetaData) : MetaData :=
  {| meta_title := meta_title d; meta_language := value;
     meta_date := meta_date d; meta_youtubeUrl := meta_youtubeUrl d;
     meta_pdfUrl := meta_pdfUrl d; meta_imageUrl := meta_imageUrl d |}.

(** The object the serializer emits for the default payload of a kind. *)
Definition default_object (T : SnippetType) : list JsObject :=
  serialize [newSnippet 0 T].

(** The object of a payload, the kind read off the payload: what
    [serialize_snippet] makes of a record whose payload is of its kind. *)
Definition payload_object (p : Payload) : option JsObject :=
  let (T, d) := p in serialize_snippet (Build_Snippet 0 T d).

(** The records after the first one hold no Meta record. *)
Definition meta_only_first (l : list Snippet) : Prop :=
  count_meta (tl l) = 0%nat.

(* ===================================================================== *)
(** ** Shapes of converted text *)
(* ===================================================================== *)

(** A text with no white space at either end. *)
Definition trimmed (s : jsstring) : Prop :=
  starts_without_space s /\ starts_without_space (rev s).

(** A text in which two line feeds with only white space between them lie
    side by side: it has no run of blank lines, and no line of white space
    alone. *)
Definition no_blank_line_runs (s : jsstring) : Prop :=
  forall a w b,
    s = a ++ LF :: w ++ LF :: b ->
    Forall (fun c => is_space c = true) w ->
    w = [].

(** The characters of a text other than white space. *)
Definition visible (s : jsstring) : jsstring :=
  filter (fun c => negb (is_space c)) s.

(** A text none of whose scan positions begins a match of the blank-line
    pattern other than two line feeds side by side. *)
Fixpoint settled (s : jsstring) : Prop :=
  match s with
  | [] => True
  | c :: rest =>
      (forall after, match_blank_lines (c :: rest) = Some after ->
                     c :: rest = LF :: LF :: after)
      /\ settled rest
  end.

(** The text of the text nodes below a node, in document order. *)
Fixpoint text_below (n : Node) : jsstring :=
  match n with
  | Text textContent => textContent
  | Element _ _ children => concat (map text_below children)
  | OtherNode => []
  end.

(** The tag names [walk] has a case for. *)
Definition has_walk_case (tag : jsstring) : bool :=
  tag_is tag "STRONG" || tag_is tag "B" || tag_is tag "EM" || tag_is tag "I"
  || tag_is tag "P" || tag_is tag "LI" || tag_is tag "UL" || tag_is tag "OL"
  || tag_is tag "BR".

(** A tree none of whose elements has a tag [walk] has a case for. *)
Fixpoint only_other_tags (n : Node) : bool :=
  match n with
  | Element ns name children =>
      negb (has_walk_case (tagName ns name)) && forallb only_other_tags children
  | _ => true
  end.

(** [sub] is [s] with some characters left out. *)
Inductive subsequence : jsstring -> jsstring -> Prop :=
| subsequence_nil : subsequence [] []
| subsequence_keep c sub s :
    subsequence sub s -> subsequence (c :: sub) (c :: s)
| subsequence_skip c sub s :
    subsequence sub s -> subsequence sub (c :: s).

(** A tree in which a line-break element has no child nodes, as in every
    parsed document. *)
Fixpoint br_is_void (n : Node) : bool :=
  match n with
  | Element ns name children =>
      (negb (tag_is (tagName ns name) "BR")
       || match children with [] => true | _ :: _ => false end)
      && forallb br_is_void children
  | _ => true
  end.

(* ===================================================================== *)
(** ** The paragraph field: formatting buttons and paste *)
(* ===================================================================== *)

(** An index argument of [substring], brought into the string. *)
Definition clamp_index (len i : Z) : Z := Z.min (Z.max i 0) len.

(** [s.substring(start, end)]: both indices are brought into the string
    and exchanged when [start] is the larger one. *)
Definition substring (s : jsstring) (start end_ : Z) : jsstring :=
  let len := Z.of_nat (length s) in
  let intStart := clamp_index len start in
  let intEnd := clamp_index len end_ in
  let from := Z.min intStart intEnd in
  let to := Z.max intStart intEnd in
  firstn (Z.to_nat (to - from)) (skipn (Z.to_nat from) s).

(** [s.substring(start)] *)
Definition substring_from (s : jsstring) (start : Z) : jsstring :=
  substring s start (Z.of_nat (length s)).

(** [pieces.join(sep)] *)
Fixpoint join (sep : jsstring) (pieces : list jsstring) : jsstring :=
  match pieces with
  | [] => []
  | piece :: rest =>
      match rest with
      | [] => piece
      | _ :: _ => piece ++ sep ++ join sep rest
      end
  end.

(** What the handlers read of the text area. *)
Record Textarea := {
  value : jsstring;
  selectionStart : Z;
  selectionEnd : Z
}.

Inductive FormatStyle := bold | italic | list_items.

(** [line => line.trim() ? `- ${line}` : line] *)
Definition list_item_line (line : jsstring) : jsstring :=
  match trim line with
  | [] => line
  | _ :: _ => js "- " ++ line
  end.

(** The [newText] of [applyFormatting] for the selected text. *)
Definition formatted_text (style : FormatStyle) (selectedText : jsstring)
  : jsstring :=
  match style with
  | bold => js "**" ++ selectedText ++ js "**"
  | italic => js "*" ++ selectedText ++ js "*"
  | list_items => join [LF] (map list_item_line (split LF selectedText))
  end.

(** [applyFormatting]: the content of the field after the call, for the
    content before it and the text area behind the ref, if there is
    one. *)
Definition applyFormatting (style : FormatStyle) (textarea : option Textarea)
    (content : jsstring) : jsstring :=
  match textarea with
  | None => content
  | Some t =>
      let selectedText :=
        substring (value t) (selectionStart t) (selectionEnd t) in
      substring (value t) 0 (selectionStart t)
        ++ formatted_text style selectedText
        ++ substring_from (value t) (selectionEnd t)
  end.

(** What the handler reads of the clipboard: the formats it offers and
    the text [getData('text/html')] returns. *)
Record Clipboard := {
  types : list jsstring;
  html_data : jsstring
}.

(** What a paste comes to: the handler returns at once and the browser
    pastes the plain text; or the handler prevents that and sets nothing;
    or it prevents that and sets the content, and later the cursor. *)
Inductive PasteEffect :=
| LeftToBrowser
| NothingPasted
| ContentSet (newContent : jsstring) (newCursorPos : Z).

(** [handlePaste] *)
Definition handlePaste (parseFromString : jsstring -> Node)
    (clipboardData : Clipboard) (textarea : Textarea) : PasteEffect :=
  if negb (existsb (jsstring_eqb (js "text/html")) (types clipboardData))
  then LeftToBrowser
  else
    let markdown := htmlToMarkdown parseFromString (html_data clipboardData) in
    match markdown with
    | [] => NothingPasted
    | _ :: _ =>
        ContentSet
          (substring (value textarea) 0 (selectionStart textarea)
             ++ markdown
             ++ substring_from (value textarea) (selectionEnd textarea))
          (selectionStart textarea + Z.of_nat (length markdown))
    end.

(** A selection as a text area reports it: within the text, the start not
    after the end. *)
Definition selection_in_text (t : Textarea) : Prop :=
  0 <= selectionStart t <= selectionEnd t
  /\ selectionEnd t <= Z.of_nat (length (value t)).

(* ===================================================================== *)
(** ** The highlighter: escaping *)
(* ===================================================================== *)

(** [s.replace(/c/g, replacement)] for a pattern of one character. *)
Definition replace_char (c : jschar) (replacement : jsstring) (s : jsstring)
  : jsstring :=
  flat_map (fun x => if jschar_eqb x c then replacement else [x]) s.

Definition AMPERSAND : jschar := 38%N.
Definition LESS_THAN : jschar := 60%N.
Definition GREATER_THAN : jschar := 62%N.

(** The first line of [highlight]:
    [json.replace(/&/g, '&amp;').replace(/</g, '&lt;').replace(/>/g, '&gt;')]. *)
Definition escape_markup (json : jsstring) : jsstring :=
  replace_char GREATER_THAN (js "&gt;")
    (replace_char LESS_THAN (js "&lt;")
       (replace_char AMPERSAND (js "&amp;") json)).

(** The escaping of one character. *)
Definition escape_char (c : jschar) : jsstring :=
  if jschar_eqb c AMPERSAND then js "&amp;"
  else if jschar_eqb c LESS_THAN then js "&lt;"
  else if jschar_eqb c GREATER_THAN then js "&gt;"
  else [c].

(* ===================================================================== *)
(** ** What the list shows of a drag *)
(* ===================================================================== *)

Definition same_index (a : option Z) (index : Z) : bool :=
  match a with
  | Some i => i =? index
  | None => false
  end.

(** [dragOverIndex === index && draggedIndex !== index]: whether the item
    at [index] is rendered with the drop indicator. *)
Definition shows_drop_indicator (st : App) (index : Z) : bool :=
  same_index (dragOverIndex st) index
  && negb (same_index (draggedIndex st) index).

(** [draggedIndex === index]: whether the item at [index] is rendered as
    the dragged one. *)
Definition shows_dragging_item (st : App) (index : Z) : bool :=
  same_index (draggedIndex st) index.

(** The state mirrors the ref, a drop target is only recorded during a
    drag, and the body carries the class exactly during a drag. *)
Definition advisory_consistent (st : App) : Prop :=
  draggedIndex st = dragItemRef st
  /\ (dragItemRef st = None -> dragOverIndex st = None)
  /\ (dragging_active st = true <-> dragItemRef st <> None).

(* ===================================================================== *)
(** ** The highlighter: tokens *)
(* ===================================================================== *)

(** The regular expressions the highlighter uses, as trees. *)
Inductive Regex :=
| Empty
| Char (c : jschar)
| Class (member : jschar -> bool)
| Seq (r1 r2 : Regex)
| Alt (r1 r2 : Regex)
| Opt (r : Regex)
| Star (r : Regex)
| WordBoundary.

(** A matcher runs from a position of the text, given as the character
    before it and the text from it on, and hands the position it reaches
    to a continuation; the result is the text left after the whole match,
    if there is a match. *)
Definition Continuation := option jschar -> jsstring -> option jsstring.
Definition Matcher := option jschar -> jsstring -> Continuation -> option jsstring.

(** A greedy repetition: one more round first, the continuation when that
    fails.  A round that consumes nothing is refused.  [rounds] bounds the
    rounds, and is never reached when it exceeds the length of the
    text. *)
Fixpoint star_loop (step : Matcher) (rounds : nat) (prev : option jschar)
    (s : jsstring) (k : Continuation) : option jsstring :=
  match rounds with
  | O => k prev s
  | S rounds' =>
      match step prev s
              (fun p s' =>
                 if (length s' <? length s)%nat
                 then star_loop step rounds' p s' k
                 else None)
      with
      | Some out => Some out
      | None => k prev s
      end
  end.

(** [\w] *)
Definition is_word_char (c : jschar) : bool :=
  ((48 <=? c) && (c <=? 57) || (65 <=? c) && (c <=? 90)
   || (97 <=? c) && (c <=? 122) || (c =? 95))%N.

Definition is_word (c : option jschar) : bool :=
  match c with
  | Some x => is_word_char x
  | None => false
  end.

(** The backtracking matcher of a regular expression: alternatives are
    tried from left to right, quantifiers are greedy. *)
Fixpoint matcher (r : Regex) : Matcher :=
  fun prev s k =>
    match r with
    | Empty => k prev s
    | Char c =>
        match s with
        | x :: rest => if jschar_eqb x c then k (Some x) rest else None
        | [] => None
        end
    | Class member =>
        match s with
        | x :: rest => if member x then k (Some x) rest else None
        | [] => None
        end
    | Seq r1 r2 => matcher r1 prev s (fun p s' => matcher r2 p s' k)
    | Alt r1 r2 =>
        match matcher r1 prev s k with
        | Some out => Some out
        | None => matcher r2 prev s k
        end
    | Opt r1 =>
        match matcher r1 prev s
                (fun p s' =>
                   if (length s' <? length s)%nat then k p s' else None)
        with
        | Some out => Some out
        | None => k prev s
        end
    | Star r1 => star_loop (matcher r1) (S (length s)) prev s k
    | WordBoundary =>
        if xorb (is_word prev) (is_word (hd_error s)) then k prev s else None
    end.

(** A literal text. *)
Fixpoint Literal (text : jsstring) : Regex :=
  match text with
  | [] => Empty
  | c :: rest => Seq (Char c) (Literal rest)
  end.

Definition Plus (r : Regex) : Regex := Seq r (Star r).

Definition QUOTE : jschar := 34%N.
Definition BACKSLASH : jschar := 92%N.
Definition COLON : jschar := 58%N.
Definition MINUS : jschar := 45%N.

Definition is_digit (c : jschar) : bool := ((48 <=? c) && (c <=? 57))%N.

(** [[a-zA-Z0-9]] *)
Definition is_alphanumeric (c : jschar) : bool :=
  ((48 <=? c) && (c <=? 57) || (65 <=? c) && (c <=? 90)
   || (97 <=? c) && (c <=? 122))%N.

(** One character of a string literal: a backslash, the letter u and
    four letters or digits; or a backslash and a character other than u;
    or a character other than the backslash and the double quote. *)
Definition string_character : Regex :=
  Alt (Seq (Char BACKSLASH)
         (Seq (Char 117%N)
            (Seq (Class is_alphanumeric)
               (Seq (Class is_alphanumeric)
                  (Seq (Class is_alphanumeric) (Class is_alphanumeric))))))
    (Alt (Seq (Char BACKSLASH) (Class (fun c => negb (c =? 117)%N)))
       (Class (fun c => negb (jschar_eqb c BACKSLASH)
                        && negb (jschar_eqb c QUOTE)))).

(** A string literal between double quotes, with the colon after it and
    the white space before the colon when there is one. *)
Definition string_token : Regex :=
  Seq (Char QUOTE)
    (Seq (Star string_character)
       (Seq (Char QUOTE) (Opt (Seq (Star (Class is_space)) (Char COLON))))).

(** [\b(true|false|null)\b] *)
Definition word_token : Regex :=
  Seq WordBoundary
    (Seq (Alt (Literal (js "true"))
            (Alt (Literal (js "false")) (Literal (js "null"))))
       WordBoundary).

(** A number: an optional minus sign, digits, an optional point with
    digits after it, an optional exponent with its optional sign. *)
Definition number_token : Regex :=
  Seq (Opt (Char 45%N))
    (Seq (Plus (Class is_digit))
       (Seq (Opt (Seq (Char 46%N) (Star (Class is_digit))))
          (Opt (Seq (Class (fun c => (c =? 101) || (c =? 69))%N)
                  (Seq (Opt (Class (fun c => (c =? 43) || (c =? 45))%N))
                     (Plus (Class is_digit))))))).

(** The pattern of [highlight]. *)
Definition token : Regex := Alt string_token (Alt word_token number_token).

(** The length of the match of a pattern at a position, if it matches
    there. *)
Definition exec (r : Regex) (prev : option jschar) (s : jsstring)
  : option nat :=
  match matcher r prev s (fun _ rest => Some rest) with
  | Some rest => Some (length s - length rest)%nat
  | None => None
  end.

(** The pieces [replace] goes through with a global pattern: the matches,
    from left to right and not overlapping, and the characters between
    them. *)
Inductive Piece :=
| Plain (c : jschar)
| Matched (text : jsstring).

Fixpoint pieces_fuel (fuel : nat) (r : Regex) (prev : option jschar)
    (s : jsstring) : list Piece :=
  match fuel with
  | O => []
  | S fuel' =>
      let copy :=
        match s with
        | [] => []
        | c :: rest => Plain c :: pieces_fuel fuel' r (Some c) rest
        end in
      match exec r prev s with
      | Some O => Matched [] :: copy
      | Some (S n) =>
          Matched (firstn (S n) s)
            :: pieces_fuel fuel' r (nth_error s n) (skipn (S n) s)
      | None => copy
      end
  end.

Definition pieces (r : Regex) (s : jsstring) : list Piece :=
  pieces_fuel (S (length s)) r None s.

(** [pattern.test(text)] for a pattern without anchors: whether it
    matches somewhere in the text. *)
Fixpoint test_fuel (fuel : nat) (r : Regex) (prev : option jschar)
    (s : jsstring) : bool :=
  match exec r prev s with
  | Some _ => true
  | None =>
      match fuel, s with
      | S fuel', c :: rest => test_fuel fuel' r (Some c) rest
      | _, _ => false
      end
  end.

Definition test (r : Regex) (s : jsstring) : bool :=
  test_fuel (length s) r None s.

(** Whether the match begins with a double quote. *)
Definition starts_with_quote (text : jsstring) : bool :=
  match text with
  | c :: _ => jschar_eqb c QUOTE
  | [] => false
  end.

(** [/:$/.test(match)] *)
Definition ends_with_colon (text : jsstring) : bool :=
  match rev text with
  | c :: _ => jschar_eqb c COLON
  | [] => false
  end.

(** The class the callback of [highlight] gives a match. *)
Definition token_class (text : jsstring) : jsstring :=
  if starts_with_quote text then
    if ends_with_colon text then js "json-key" else js "json-string"
  else if test (Alt (Literal (js "true")) (Literal (js "false"))) text then
    js "json-boolean"
  else if test (Literal (js "null")) text then js "json-null"
  else js "json-number".

Definition render_piece (p : Piece) : jsstring :=
  match p with
  | Plain c => [c]
  | Matched text =>
      js "<span class=" ++ [QUOTE] ++ token_class text ++ [QUOTE] ++ js ">"
        ++ text ++ js "</span>"
  end.

(** The text of a piece before it is rendered. *)
Definition piece_text (p : Piece) : jsstring :=
  match p with
  | Plain c => [c]
  | Matched text => text
  end.

(** [highlight] *)
Definition highlight (json : jsstring) : jsstring :=
  match json with
  | [] => []
  | _ :: _ => concat (map render_piece (pieces token (escape_markup json)))
  end.

(** A character of a string literal that stands for itself: neither the
    backslash nor the double quote. *)
Definition is_plain_string_char (c : jschar) : bool :=
  negb (jschar_eqb c BACKSLASH) && negb (jschar_eqb c QUOTE).

(** A text that does not go on with white space and a colon: after its
    leading white space it ends, or has a character other than the
    colon. *)
Definition no_colon_ahead (s : jsstring) : Prop :=
  exists w tail,
    s = w ++ tail
    /\ Forall (fun c => is_space c = true) w
    /\ match tail with
       | [] => True
       | c :: _ => is_space c = false /\ c <> COLON
       end.

(** A text at which a number of digits alone ends: it is empty, or begins
    with a character other than a digit, the point and the letter e. *)
Definition ends_number (rest : jsstring) : Prop :=
  match rest with
  | [] => True
  | c :: _ =>
      is_digit c = false /\ (c =? 46)%N = false
      /\ (c =? 101)%N = false /\ (c =? 69)%N = false
  end.

(* ===================================================================== *)
(** * Properties *)
(* ===================================================================== *)

(** ** Lists and [splice] *)

Section SpliceFacts.
Context {A : Type}.
Implicit Types (l : list A) (x : A) (i j : nat).

Lemma actual_start_range (len start : Z) :
  0 <= len -> 0 <= actual_start len start <= len.
Proof. unfold actual_start. destruct (start <? 0) eqn:E; lia. Qed.

Lemma actual_start_in_range (len start : Z) :
  0 <= start <= len -> actual_start len start = start.
Proof. unfold actual_start. destruct (start <? 0) eqn:E; lia. Qed.

Lemma length_remove_at i l :
  (i < length l)%nat -> length (remove_at i l) = pred (length l).
Proof.
  intros H. unfold remove_at.
  rewrite length_app, length_firstn, length_skipn. lia.
Qed.

Lemma length_insert_at i x l : length (insert_at i x l) = S (length l).
Proof.
  unfold insert_at. rewrite length_app. simpl.
  rewrite length_firstn, length_skipn. lia.
Qed.

Lemma nth_error_insert_at i x l :
  (i <= length l)%nat -> nth_error (insert_at i x l) i = Some x.
Proof.
  intros H. unfold insert_at.
  rewrite nth_error_app2; rewrite length_firstn; [|lia].
  replace (i - Nat.min i (length l))%nat with 0%nat by lia. reflexivity.
Qed.

Lemma remove_at_insert_at i x l :
  (i <= length l)%nat -> remove_at i (insert_at i x l) = l.
Proof.
  intros H. unfold remove_at, insert_at.
  assert (Hlen : length (firstn i l) = i) by (rewrite length_firstn; lia).
  rewrite skipn_app, firstn_app, Hlen, Nat.sub_diag.
  replace (S i - i)%nat with 1%nat by lia.
  rewrite (firstn_all2 (n := i) (firstn i l)) by lia.
  rewrite (skipn_all2 (n := S i) (firstn i l)) by lia.
  simpl. rewrite app_nil_r. apply firstn_skipn.
Qed.

Lemma nth_error_decompose i x l :
  nth_error l i = Some x ->
  l = firstn i l ++ x :: skipn (S i) l.
Proof.
  revert l. induction i as [|i IH]; intros [|y l] H; simpl in *;
    try discriminate.
  - now inversion H.
  - f_equal. now apply IH.
Qed.

Lemma skipn_nth_error i x l :
  nth_error l i = Some x -> skipn i l = x :: skipn (S i) l.
Proof.
  revert l. induction i as [|i IH]; intros [|y l] H; simpl in *;
    try discriminate.
  - now inversion H.
  - now apply IH.
Qed.

Lemma Permutation_insert_remove i j x l :
  nth_error l i = Some x ->
  Permutation l (insert_at j x (remove_at i l)).
Proof.
  intros H. unfold insert_at.
  rewrite (nth_error_decompose i x l H) at 1.
  set (r := remove_at i l).
  transitivity (x :: r).
  - symmetry. apply Permutation_middle.
  - rewrite <- (firstn_skipn j r) at 1. apply Permutation_middle.
Qed.

(** Taking one element out at a position that exists. *)
Lemma splice_remove_one l (start : Z) x :
  nth_error l (Z.to_nat (actual_start (Z.of_nat (length l)) start)) = Some x ->
  splice l start 1 [] =
    ([x], remove_at (Z.to_nat (actual_start (Z.of_nat (length l)) start)) l).
Proof.
  intros H. unfold splice.
  set (i := Z.to_nat (actual_start (Z.of_nat (length l)) start)) in *.
  assert (Hi : (i < length l)%nat).
  { apply nth_error_Some. congruence. }
  assert (Hs := actual_start_range (Z.of_nat (length l)) start
                  ltac:(lia)).
  replace (Z.to_nat
             (Z.min (Z.max 1 0)
                (Z.of_nat (length l)
                 - actual_start (Z.of_nat (length l)) start)))
    with 1%nat by (subst i; lia).
  f_equal.
  - now rewrite (skipn_nth_error i x l H).
  - unfold remove_at. simpl. now rewrite Nat.add_1_r.
Qed.

(** Taking one element out at a position past the end removes nothing. *)
Lemma splice_remove_none l (start : Z) :
  Z.of_nat (length l) <= actual_start (Z.of_nat (length l)) start ->
  splice l start 1 [] = ([], l).
Proof.
  intros H. unfold splice.
  assert (Hs := actual_start_range (Z.of_nat (length l)) start
                  ltac:(lia)).
  set (a := actual_start (Z.of_nat (length l)) start) in *.
  replace (Z.to_nat (Z.min (Z.max 1 0) (Z.of_nat (length l) - a)))
    with 0%nat by lia.
  simpl. rewrite Nat.add_0_r.
  rewrite firstn_all2 by lia. rewrite skipn_all2 by lia.
  now rewrite app_nil_r.
Qed.

(** Putting one element in. *)
Lemma splice_insert_one l (index : Z) x :
  splice l index 0 [x] =
    ([], insert_at (Z.to_nat (actual_start (Z.of_nat (length l)) index)) x l).
Proof.
  unfold splice.
  assert (Hs := actual_start_range (Z.of_nat (length l)) index
                  ltac:(lia)).
  set (a := actual_start (Z.of_nat (length l)) index) in *.
  replace (Z.to_nat (Z.min (Z.max 0 0) (Z.of_nat (length l) - a)))
    with 0%nat by lia.
  simpl. now rewrite Nat.add_0_r.
Qed.
End SpliceFacts.

Section MapFacts.
Context {A B : Type} (f : A -> B).

Lemma remove_at_map i (l : list A) :
  remove_at i (map f l) = map f (remove_at i l).
Proof.
  unfold remove_at. now rewrite map_app, firstn_map, skipn_map.
Qed.

Lemma insert_at_map i x (l : list A) :
  insert_at i (f x) (map f l) = map f (insert_at i x l).
Proof.
  unfold insert_at. rewrite map_app. simpl.
  now rewrite firstn_map, skipn_map.
Qed.
End MapFacts.

(** ** The reorder engine *)

(** A drop on another index takes the dragged record out and puts it back
    at the drop position of the shortened list. *)
Lemma handleDrop_moves prev source index moved :
  source <> index ->
  nth_error prev (source_position prev source) = Some moved ->
  handleDrop (Some source) index prev =
    map Some (insert_at (target_position prev index) moved
                (remove_at (source_position prev source) prev)).
Proof.
  intros Hne Hnth. unfold handleDrop, source_position, target_position in *.
  destruct (Z.eqb_spec source index) as [->|_]; [contradiction|].
  assert (Hlt : (Z.to_nat (actual_start (Z.of_nat (length prev)) source)
                 < length prev)%nat).
  { apply nth_error_Some. congruence. }
  rewrite (splice_remove_one (map Some prev) source (Some moved)).
  - cbn [first_or_undefined]. rewrite splice_insert_one. cbn [snd].
    rewrite remove_at_map, !length_map, length_remove_at by lia.
    replace (Z.of_nat (pred (length prev)))
      with (Z.of_nat (length prev) - 1) by lia.
    apply insert_at_map.
  - rewrite length_map, nth_error_map, Hnth. reflexivity.
Qed.

(** A dragged index past the end of the list removes nothing, and the
    drop stores [undefined] in the array. *)
Lemma handleDrop_stale_source prev source index :
  source <> index ->
  Z.of_nat (length prev) <= source ->
  handleDrop (Some source) index prev =
    insert_at (Z.to_nat (actual_start (Z.of_nat (length prev)) index)) None
      (map Some prev).
Proof.
  intros Hne Hge. unfold handleDrop.
  destruct (Z.eqb_spec source index) as [->|_]; [contradiction|].
  rewrite splice_remove_none.
  - cbn [first_or_undefined]. rewrite splice_insert_one. cbn [snd].
    now rewrite length_map.
  - rewrite length_map. unfold actual_start.
    destruct (source <? 0) eqn:E; lia.
Qed.

(** C2. A drop on the dragged index itself leaves the list as it is.  A
    drop on another index of the list gives the list obtained by removing
    the element at the dragged index and inserting it at the drop index of
    the list without it: the moved record is at the drop index, and the
    other records are, in their order, the ones that were there before. *)
Theorem handleDrop_reorders (prev : list Snippet) (source target : Z)
    (Hsource : 0 <= source < Z.of_nat (length prev))
    (Htarget : 0 <= target < Z.of_nat (length prev)) :
  handleDrop (Some source) source prev = map Some prev
  /\ (target <> source ->
      exists moved,
        nth_error prev (Z.to_nat source) = Some moved
        /\ handleDrop (Some source) target prev =
             map Some (insert_at (Z.to_nat target) moved
                         (remove_at (Z.to_nat source) prev))
        /\ nth_error (handleDrop (Some source) target prev) (Z.to_nat target)
             = Some (Some moved)
        /\ remove_at (Z.to_nat target) (handleDrop (Some source) target prev)
             = map Some (remove_at (Z.to_nat source) prev)).
Proof.
  split.
  - unfold handleDrop. now rewrite Z.eqb_refl.
  - intros Hne.
    assert (Hs : source_position prev source = Z.to_nat source).
    { unfold source_position. now rewrite actual_start_in_range by lia. }
    assert (Ht : target_position prev target = Z.to_nat target).
    { unfold target_position. now rewrite actual_start_in_range by lia. }
    destruct (nth_error prev (Z.to_nat source)) as [moved|] eqn:Hnth.
    2:{ apply nth_error_None in Hnth. lia. }
    exists moved. split; [reflexivity|].
    assert (Hdrop := handleDrop_moves prev source target moved
                       ltac:(congruence)).
    rewrite Hs, Ht in Hdrop. specialize (Hdrop Hnth).
    assert (Hlen : (Z.to_nat target
                    <= length (remove_at (Z.to_nat source) prev))%nat).
    { rewrite length_remove_at by lia. lia. }
    split; [exact Hdrop|]. rewrite Hdrop. split.
    + rewrite nth_error_map, nth_error_insert_at by exact Hlen. reflexivity.
    + rewrite remove_at_map, remove_at_insert_at by exact Hlen. reflexivity.
Qed.

Lemma handleDrop_reorders_witness :
  handleDrop (Some 0) 2 [newSnippet 10 verse; newSnippet 11 lesson;
                         newSnippet 12 prayer]
  = map Some [newSnippet 11 lesson; newSnippet 12 prayer;
              newSnippet 10 verse].
Proof.
  destruct (handleDrop_reorders
              [newSnippet 10 verse; newSnippet 11 lesson; newSnippet 12 prayer]
              0 2 ltac:(simpl; lia) ltac:(simpl; lia))
    as [_ Hmove].
  destruct (Hmove ltac:(lia)) as (moved & Hnth & Hdrop & _).
  injection Hnth as <-. exact Hdrop.
Defined.




(** ** The drag handlers *)

Lemma drag_step_snippets st e : snippets (drag_step st e) = snippets st.
Proof.
  destruct e; simpl; try reflexivity.
  unfold handleDragEnter. now destruct (dragItemRef st).
Qed.

(** C9. Beginning a drag, entering a drop target and ending the drag each
    leave the snippet list as it is, and so does every sequence of these
    events: they write the advisory indices only. *)
Theorem drag_events_keep_snippets :
  (forall st index, snippets (handleDragStart st index) = snippets st
     /\ draggedIndex (handleDragStart st index) = Some index)
  /\ (forall st index, snippets (handleDragEnter st index) = snippets st
     /\ draggedIndex (handleDragEnter st index) = draggedIndex st)
  /\ (forall st, snippets (handleDragEnd st) = snippets st
     /\ draggedIndex (handleDragEnd st) = None
     /\ dragOverIndex (handleDragEnd st) = None)
  /\ (forall es st, snippets (drag_steps es st) = snippets st).
Proof.
  repeat split.
  - unfold handleDragEnter. now destruct (dragItemRef st).
  - unfold handleDragEnter. now destruct (dragItemRef st).
  - intros es. unfold drag_steps.
    induction es as [|e es IH]; intros st; simpl; [reflexivity|].
    now rewrite IH, drag_step_snippets.
Qed.

(** ** The snippet registry *)

Lemma length_handleAddSnippet now T prev :
  length (handleAddSnippet now T prev) = S (length prev).
Proof.
  unfold handleAddSnippet. destruct (SnippetType_eqb T meta); simpl;
    [reflexivity|]. rewrite length_app. simpl. lia.
Qed.

Lemma SnippetType_eqb_eq a b : SnippetType_eqb a b = true <-> a = b.
Proof. destruct a, b; simpl; split; intros H; congruence. Qed.

(** C1, the claim as it stands fails: the handler has no check, and adds
    a second Meta record in front of the one that exists. *)
Lemma handleAddSnippet_adds_second_meta :
  metaExists [newSnippet 1 meta] = true
  /\ handleAddSnippet 2 meta [newSnippet 1 meta]
     = [newSnippet 2 meta; newSnippet 1 meta]
  /\ handleAddSnippet 2 meta [newSnippet 1 meta] <> [newSnippet 1 meta].
Proof.
  split; [reflexivity|]. split; [reflexivity|].
  intros H. apply (f_equal (@length Snippet)) in H. discriminate.
Qed.

(** C1, amended. The guard is the selector: while a Meta record exists
    its Meta button is disabled, and a click on it leaves the snippet
    list as it is; no record is created. *)
Theorem SnippetSelector_rejects_second_meta (now : Z) (prev : list Snippet)
    (Hmeta : metaExists prev = true) :
  SnippetSelector_click (handleAddSnippet now) meta prev = prev.
Proof. unfold SnippetSelector_click. now rewrite Hmeta. Qed.

Lemma SnippetSelector_rejects_second_meta_witness :
  SnippetSelector_click (handleAddSnippet 2) meta
    [newSnippet 5 verse; newSnippet 1 meta]
  = [newSnippet 5 verse; newSnippet 1 meta].
Proof.
  apply (SnippetSelector_rejects_second_meta 2
           [newSnippet 5 verse; newSnippet 1 meta]).
  reflexivity.
Defined.

(** C3. An added Meta record is at position 0 of the resulting list and
    the records that were there follow it in their order; a record of
    another kind is at the end, after the records that were there, which
    keep their positions.  No record that was there is changed. *)
Theorem handleAddSnippet_position (now : Z) (T : SnippetType)
    (prev : list Snippet) (Hkind : T <> meta) :
  (handleAddSnippet now meta prev = newSnippet now meta :: prev
   /\ nth_error (handleAddSnippet now meta prev) 0 = Some (newSnippet now meta)
   /\ forall i, nth_error (handleAddSnippet now meta prev) (S i)
                = nth_error prev i)
  /\ (handleAddSnippet now T prev = prev ++ [newSnippet now T]
      /\ nth_error (handleAddSnippet now T prev) (length prev)
         = Some (newSnippet now T)
      /\ length (handleAddSnippet now T prev) = S (length prev)
      /\ forall i, (i < length prev)%nat ->
                   nth_error (handleAddSnippet now T prev) i
                   = nth_error prev i).
Proof.
  split.
  - now repeat split.
  - assert (E : SnippetType_eqb T meta = false).
    { destruct (SnippetType_eqb T meta) eqn:E; [|reflexivity].
      now apply SnippetType_eqb_eq in E. }
    assert (Happ : handleAddSnippet now T prev = prev ++ [newSnippet now T]).
    { unfold handleAddSnippet. now rewrite E. }
    split; [exact Happ|]. rewrite Happ. split; [|split].
    + rewrite nth_error_app2 by lia. now rewrite Nat.sub_diag.
    + rewrite length_app. simpl. lia.
    + intros i Hi. now apply nth_error_app1.
Qed.

Lemma handleAddSnippet_position_witness :
  handleAddSnippet 9 meta [newSnippet 1 verse; newSnippet 2 lesson]
  = [newSnippet 9 meta; newSnippet 1 verse; newSnippet 2 lesson]
  /\ handleAddSnippet 9 prayer [newSnippet 1 verse; newSnippet 2 lesson]
     = [newSnippet 1 verse; newSnippet 2 lesson; newSnippet 9 prayer].
Proof.
  destruct (handleAddSnippet_position 9 prayer
              [newSnippet 1 verse; newSnippet 2 lesson]
              ltac:(discriminate))
    as [(Hfront & _) (Hback & _)].
  split; [exact Hfront | exact Hback].
Defined.

(** *** At most one Meta record *)

Lemma metaExists_count_meta l : metaExists l = false <-> count_meta l = 0%nat.
Proof.
  unfold metaExists, count_meta.
  induction l as [|s l IH]; simpl; [tauto|].
  destruct (is_meta s); simpl; [split; discriminate | exact IH].
Qed.

Lemma count_meta_handleAddSnippet now T l :
  count_meta (handleAddSnippet now T l) =
    (count_meta l + if SnippetType_eqb T meta then 1 else 0)%nat.
Proof.
  unfold handleAddSnippet, count_meta.
  destruct (SnippetType_eqb T meta) eqn:E.
  - cbn [filter]. unfold is_meta at 1. cbn [type newSnippet].
    rewrite E. simpl. lia.
  - rewrite filter_app, length_app. cbn [filter].
    unfold is_meta at 2. cbn [type newSnippet]. now rewrite E.
Qed.

Lemma count_meta_handleDeleteSnippet i l :
  (count_meta (handleDeleteSnippet i l) <= count_meta l)%nat.
Proof.
  unfold handleDeleteSnippet, count_meta.
  induction l as [|s l IH]; simpl; [lia|].
  destruct (negb (id s =? i)); simpl; destruct (is_meta s); simpl; lia.
Qed.

(** Through the selector and the delete buttons the list never holds more
    than one Meta record. *)
Lemma at_most_one_meta actions :
  (count_meta (fold_left act actions []) <= 1)%nat.
Proof.
  assert (H : forall l, (count_meta l <= 1)%nat ->
                        (count_meta (fold_left act actions l) <= 1)%nat).
  { induction actions as [|a actions IH]; intros l Hl; [exact Hl|].
    cbn [fold_left]. apply IH. destruct a as [now button | i]; cbn [act].
    - unfold SnippetSelector_click.
      destruct (SnippetType_eqb button meta) eqn:E; cbn [andb].
      + destruct (metaExists l) eqn:M; [exact Hl|].
        apply metaExists_count_meta in M.
        rewrite count_meta_handleAddSnippet, E. lia.
      + rewrite count_meta_handleAddSnippet, E. lia.
    - pose proof (count_meta_handleDeleteSnippet i l). lia. }
  apply H. unfold count_meta. simpl. lia.
Qed.

(** *** Identifiers *)

Lemma ids_handleAddSnippet now T prev :
  Permutation (now :: map id prev) (map id (handleAddSnippet now T prev)).
Proof.
  unfold handleAddSnippet. destruct (SnippetType_eqb T meta); simpl.
  - reflexivity.
  - rewrite map_app. simpl. apply Permutation_cons_append.
Qed.

Lemma ids_handleDeleteSnippet_incl i prev :
  incl (map id (handleDeleteSnippet i prev)) (map id prev).
Proof.
  unfold handleDeleteSnippet. intros x Hx.
  apply in_map_iff in Hx as (s & <- & Hs).
  apply filter_In in Hs as [Hs _]. now apply in_map.
Qed.

Lemma ids_handleDeleteSnippet_NoDup i prev :
  NoDup (map id prev) -> NoDup (map id (handleDeleteSnippet i prev)).
Proof.
  unfold handleDeleteSnippet.
  induction prev as [|s prev IH]; simpl; intros H; [constructor|].
  inversion H as [|? ? Hnotin Hrest]; subst.
  destruct (negb (id s =? i)); simpl; [|now apply IH].
  constructor; [|now apply IH].
  intros Hin. apply Hnotin.
  now apply (ids_handleDeleteSnippet_incl i prev).
Qed.

Lemma request_ids_consistent r q :
  ids_consistent r ->
  (forall now T, q = Add now T -> ~ In now (assigned r)) ->
  ids_consistent (request r q).
Proof.
  intros [Hnodup Hincl] Hfresh. destruct q as [now T | i]; simpl.
  - specialize (Hfresh now T eq_refl). split.
    + eapply Permutation_NoDup; [apply ids_handleAddSnippet|].
      constructor; [|exact Hnodup]. intros Hin. now apply Hfresh, Hincl.
    + intros x Hx.
      eapply Permutation_in in Hx;
        [|symmetry; apply ids_handleAddSnippet].
      destruct Hx as [<-|Hx]; [now left | right; now apply Hincl].
  - split.
    + now apply ids_handleDeleteSnippet_NoDup.
    + intros x Hx. now apply Hincl, (ids_handleDeleteSnippet_incl i).
Qed.

Lemma assigned_requests qs r :
  assigned (requests qs r) = clock_readings qs ++ assigned r.
Proof.
  unfold requests. revert r.
  induction qs as [|[now T | i] qs IH]; intros r; simpl.
  - reflexivity.
  - rewrite IH. simpl. now rewrite <- app_assoc.
  - now rewrite IH.
Qed.

Lemma requests_ids_consistent qs r :
  ids_consistent r ->
  NoDup (clock_readings qs ++ assigned r) ->
  ids_consistent (requests qs r).
Proof.
  unfold requests. revert r.
  induction qs as [|q qs IH]; intros r Hinv Hnodup; simpl; [exact Hinv|].
  apply IH.
  - apply request_ids_consistent; [exact Hinv|].
    intros now T ->. simpl in Hnodup.
    rewrite <- app_assoc in Hnodup. simpl in Hnodup.
    apply NoDup_remove_2 in Hnodup.
    intros Hin. apply Hnodup, in_or_app. now right.
  - destruct q as [now T | i]; simpl in *.
    + now rewrite <- app_assoc in Hnodup.
    + exact Hnodup.
Qed.

(** C4, the claim as it stands fails: an id is the clock reading at the
    add, and two adds at one reading give two records of the registry the
    same id; an add at the reading of a deleted record gives its id
    again. *)
Lemma clock_ids_can_repeat :
  map id (records (requests [Add 1000 verse; Add 1000 paragraph]
                     empty_registry)) = [1000; 1000]
  /\ ~ NoDup (assigned (requests [Add 1000 verse; Add 1000 paragraph]
                          empty_registry))
  /\ ~ NoDup (assigned (requests [Add 1000 verse; Delete 1000; Add 1000 verse]
                          empty_registry)).
Proof.
  split; [reflexivity|].
  split; intros H; simpl in H; inversion H as [|? ? Hnotin _]; subst;
    apply Hnotin; now left.
Qed.

(** C4, amended. In every sequence of add and delete requests whose adds
    happen at pairwise distinct clock readings, the ids assigned over the
    whole sequence are pairwise distinct, deleted records included, and the
    records of the registry carry distinct ids among them. *)
Theorem ids_unique_for_distinct_clock_readings (qs : list Request)
    (Hclock : NoDup (clock_readings qs)) :
  assigned (requests qs empty_registry) = clock_readings qs
  /\ NoDup (assigned (requests qs empty_registry))
  /\ NoDup (map id (records (requests qs empty_registry)))
  /\ incl (map id (records (requests qs empty_registry)))
          (assigned (requests qs empty_registry)).
Proof.
  assert (Hlog : assigned (requests qs empty_registry) = clock_readings qs).
  { rewrite assigned_requests. simpl. apply app_nil_r. }
  assert (Hinv : ids_consistent (requests qs empty_registry)).
  { apply requests_ids_consistent.
    - split; [constructor | intros x []].
    - simpl. now rewrite app_nil_r. }
  destruct Hinv as [Hnodup Hincl].
  rewrite Hlog in *. now repeat split.
Qed.

Lemma ids_unique_for_distinct_clock_readings_witness :
  NoDup (assigned (requests [Add 1000 verse; Delete 1000; Add 1001 verse;
                             Add 1002 meta] empty_registry)).
Proof.
  apply (ids_unique_for_distinct_clock_readings
           [Add 1000 verse; Delete 1000; Add 1001 verse; Add 1002 meta]).
  simpl. repeat constructor; simpl; intros H; lia.
Defined.

(** ** The serializer *)

Lemma filter_Boolean_app {A : Type} (l1 l2 : list (option A)) :
  filter_Boolean (l1 ++ l2) = filter_Boolean l1 ++ filter_Boolean l2.
Proof.
  induction l1 as [|[o|] l1 IH]; simpl; [reflexivity| |exact IH].
  now rewrite IH.
Qed.

Lemma serialize_app l1 l2 :
  serialize (l1 ++ l2) = serialize l1 ++ serialize l2.
Proof. unfold serialize. now rewrite map_app, filter_Boolean_app. Qed.

Lemma serialize_snippet_recognized s :
  type s <> unrecognized -> exists o, serialize_snippet s = Some o.
Proof.
  destruct s as [i [] d]; simpl; intros H; try (eexists; reflexivity).
  contradiction.
Qed.

Lemma serialize_recognized_nth l :
  (forall s, In s l -> type s <> unrecognized) ->
  length (serialize l) = length l
  /\ forall k s, nth_error l k = Some s ->
       serialize_snippet s = Some (nth k (serialize l) []).
Proof.
  induction l as [|s l IH]; intros Hall.
  - split; [reflexivity|]. intros [|k] s H; discriminate.
  - destruct (serialize_snippet_recognized s) as [o Ho].
    { apply Hall. now left. }
    destruct IH as [IHlen IHnth].
    { intros s' Hs'. apply Hall. now right. }
    unfold serialize in *. simpl. rewrite Ho. simpl. split.
    + now rewrite IHlen.
    + intros [|k] s' H; simpl in H.
      * now inversion H; subst.
      * now apply IHnth.
Qed.

(** C6. The output array follows the order of the list: the output of a
    concatenation is the concatenation of the outputs.  A record of a
    kind of the union gives one object, of the shape of its kind, with the
    properties in the order listed; a record of another kind gives none.
    When every record is of a kind of the union, entry [k] of the output is
    the object of record [k]. *)
Theorem serialize_order_and_shapes :
  serialize [] = []
  /\ (forall l1 l2, serialize (l1 ++ l2) = serialize l1 ++ serialize l2)
  /\ (forall i d, serialize [Build_Snippet i meta d] =
        [[ (js "type", js "meta");
           (js "title", meta_title d);
           (js "language", Language_string (meta_language d));
           (js "date", meta_date d);
           (js "youtubeUrl", meta_youtubeUrl d);
           (js "pdfUrl", meta_pdfUrl d);
           (js "imageUrl", meta_imageUrl d) ]])
  /\ (forall i d, serialize [Build_Snippet i verse d] =
        [[ (js "type", js "verse");
           (js "reference", verse_reference d);
           (js "text", verse_text d) ]])
  /\ (forall i d, serialize [Build_Snippet i paragraph d] =
        [[ (js "type", js "paragraph");
           (js "content", paragraph_content d) ]])
  /\ (forall i d, serialize [Build_Snippet i prayer d] =
        [[ (js "type", js "prayer");
           (js "title", prayer_title d);
           (js "text", prayer_text d) ]])
  /\ (forall i d, serialize [Build_Snippet i lesson d] =
        [[ (js "type", js "lesson");
           (js "content", lesson_content d) ]])
  /\ (forall i d, serialize [Build_Snippet i unrecognized d] = [])
  /\ (forall l,
        (forall s, In s l -> type s <> unrecognized) ->
        length (serialize l) = length l
        /\ forall k s, nth_error l k = Some s ->
             serialize_snippet s = Some (nth k (serialize l) [])).
Proof.
  split; [reflexivity|].
  split; [exact serialize_app|].
  repeat (split; [reflexivity|]).
  exact serialize_recognized_nth.
Qed.

Lemma serialize_order_and_shapes_witness :
  length (serialize [newSnippet 3 meta; newSnippet 4 verse]) = 2%nat
  /\ serialize_snippet (newSnippet 4 verse)
     = Some (nth 1 (serialize [newSnippet 3 meta; newSnippet 4 verse]) []).
Proof.
  destruct serialize_order_and_shapes
    as (_ & _ & _ & _ & _ & _ & _ & _ & Hnth).
  destruct (Hnth [newSnippet 3 meta; newSnippet 4 verse]) as [Hlen Hk].
  - intros s [<-|[<-|[]]]; discriminate.
  - split; [exact Hlen|]. apply (Hk 1%nat). reflexivity.
Defined.

(** ** The download file name *)

Lemma find_is_meta_none l : metaExists l = false -> find is_meta l = None.
Proof.
  unfold metaExists. induction l as [|s l IH]; simpl; [reflexivity|].
  destruct (is_meta s); simpl; [discriminate | exact IH].
Qed.

(** The name follows the date and the language of the Meta record. *)
Lemma download_filename_example :
  download_filename [newSnippet 1 verse;
                     meta_snippet 2 Tamil (js "2024-03-07")]
    = js "07-03-2024-TA.json"
  /\ download_filename [meta_snippet 2 English (js "2024-03-07")]
    = js "07-03-2024-EN.json".
Proof. split; reflexivity. Qed.

(** Without a Meta record the name is the default one. *)
Lemma download_filename_no_meta l :
  metaExists l = false -> download_filename l = js "content.json".
Proof.
  intros H. unfold download_filename. now rewrite find_is_meta_none.
Qed.

Lemma find_is_meta_first pre s post :
  metaExists pre = false -> is_meta s = true ->
  find is_meta (pre ++ s :: post) = Some s.
Proof.
  unfold metaExists. intros Hpre Hs.
  induction pre as [|p pre IH]; simpl in *; [now rewrite Hs|].
  destruct (is_meta p); simpl in *; [discriminate | now apply IH].
Qed.

(** With a Meta record whose date is empty the name is the default one. *)
Lemma download_filename_no_date pre i d post :
  metaExists pre = false -> meta_date d = [] ->
  download_filename (pre ++ Build_Snippet i meta d :: post)
    = js "content.json".
Proof.
  intros Hpre Hdate. unfold download_filename.
  rewrite find_is_meta_first by (exact Hpre || reflexivity).
  now rewrite Hdate.
Qed.

Lemma split_without_separator sep s :
  ~ In sep s -> split sep s = [s].
Proof.
  induction s as [|c s IH]; intros H; [reflexivity|]. simpl.
  destruct (jschar_eqb c sep) eqn:E.
  - apply N.eqb_eq in E. exfalso. apply H. now left.
  - rewrite IH; [reflexivity|]. intros Hin. apply H. now right.
Qed.

Lemma split_at_separator sep a b :
  ~ In sep a -> split sep (a ++ sep :: b) = a :: split sep b.
Proof.
  induction a as [|c a IH]; intros H; simpl.
  - unfold jschar_eqb. now rewrite N.eqb_refl.
  - destruct (jschar_eqb c sep) eqn:E.
    + apply N.eqb_eq in E. exfalso. apply H. now left.
    + rewrite IH; [reflexivity|]. intros Hin. apply H. now right.
Qed.

(** With a date made of a year, a month and a day between hyphens, the
    name is day, month, year and the language code. *)
Lemma download_filename_of_date pre i d post year month day :
  metaExists pre = false ->
  meta_date d = year ++ js "-" ++ month ++ js "-" ++ day ->
  ~ In (N_of_ascii "-"%char) year ->
  ~ In (N_of_ascii "-"%char) month ->
  ~ In (N_of_ascii "-"%char) day ->
  download_filename (pre ++ Build_Snippet i meta d :: post) =
    day ++ js "-" ++ month ++ js "-" ++ year ++ js "-"
      ++ (match meta_language d with Tamil => js "TA" | English => js "EN" end)
      ++ js ".json".
Proof.
  intros Hpre Hdate Hy Hm Hd. unfold download_filename.
  rewrite find_is_meta_first by (exact Hpre || reflexivity).
  rewrite Hdate.
  change (year ++ js "-" ++ month ++ js "-" ++ day)
    with (year ++ N_of_ascii "-"%char :: month ++ N_of_ascii "-"%char :: day).
  rewrite !split_at_separator, split_without_separator by assumption.
  cbn [nth_error template_hole].
  destruct year as [|c year]; [|now rewrite <- !app_assoc].
  now rewrite <- !app_assoc.
Qed.

(** C5, the code at a date that is not of the form year-month-day: the
    pieces the date lacks are printed as the word undefined, and the name
    is not the default one. *)
Theorem download_filename_malformed_date :
  download_filename [meta_snippet 1 English (js "20240307")]
    = js "undefined-undefined-20240307-EN.json"
  /\ download_filename [meta_snippet 1 English (js "20240307")]
     <> js "content.json"
  /\ download_filename [meta_snippet 1 Tamil (js "March 7")]
    = js "undefined-undefined-March 7-TA.json".
Proof.
  split; [reflexivity|]. split; [|reflexivity].
  vm_compute. discriminate.
Qed.

(** ** The rich-text converter *)

(** Induction on a document tree, with the children of an element. *)
Lemma Node_induction (P : Node -> Prop) :
  (forall textContent, P (Text textContent)) ->
  P OtherNode ->
  (forall ns name children,
      Forall P children -> P (Element ns name children)) ->
  forall n, P n.
Proof.
  intros HText HOther HElement.
  fix IH 1. intros [textContent | ns name children |].
  - apply HText.
  - apply HElement. induction children as [|c children IHc].
    + constructor.
    + constructor; [apply IH | exact IHc].
  - apply HOther.
Qed.

Lemma remove_script_style_Element ns name children :
  remove_script_style (Element ns name children) =
    Element ns name
      (map remove_script_style
         (filter (fun c => negb (is_script_or_style c)) children)).
Proof.
  cbn [remove_script_style]. f_equal.
  induction children as [|c children IH]; [reflexivity|].
  cbn [filter]. destruct (is_script_or_style c); cbn [negb map].
  - exact IH.
  - now rewrite IH.
Qed.

Lemma is_script_or_style_removed n :
  is_script_or_style (remove_script_style n) = is_script_or_style n.
Proof. now destruct n. Qed.

Lemma no_script_style_removed n :
  no_script_style (remove_script_style n) = true.
Proof.
  induction n as [textContent | | ns name children IH] using Node_induction;
    try reflexivity.
  rewrite remove_script_style_Element. cbn [no_script_style].
  induction children as [|c children IHc]; [reflexivity|].
  inversion IH as [|? ? Hc Hrest]; subst.
  cbn [filter]. destruct (is_script_or_style c) eqn:E; cbn [negb map].
  - now apply IHc.
  - cbn [forallb]. rewrite is_script_or_style_removed, E, Hc.
    now apply IHc.
Qed.

(** *** The blank-line replacement *)

Lemma match_spaces_newline_shorter s after :
  match_spaces_newline s = Some after -> (length after < length s)%nat.
Proof.
  revert after. induction s as [|c rest IH]; intros after; simpl;
    [discriminate|].
  destruct (is_space c).
  - destruct (match_spaces_newline rest) as [a|] eqn:E.
    + intros H. inversion H; subst. specialize (IH after eq_refl). lia.
    + destruct (jschar_eqb c LF); intros H; inversion H; subst. lia.
  - destruct (jschar_eqb c LF); intros H; inversion H; subst. lia.
Qed.

Lemma match_blank_lines_shorter s after :
  match_blank_lines s = Some after -> (S (length after) < length s)%nat.
Proof.
  destruct s as [|c rest]; simpl; [discriminate|].
  destruct (jschar_eqb c LF); [|discriminate].
  intros H. apply match_spaces_newline_shorter in H. lia.
Qed.

(** Fuel beyond the length of the string changes nothing: the scan ends
    within [length s] steps. *)
Lemma replace_blank_lines_fuel_enough fuel1 fuel2 s :
  (length s <= fuel1)%nat -> (length s <= fuel2)%nat ->
  replace_blank_lines_fuel fuel1 s = replace_blank_lines_fuel fuel2 s.
Proof.
  revert fuel2 s. induction fuel1 as [|fuel1 IH]; intros fuel2 s H1 H2.
  - destruct s; [|simpl in H1; lia]. now destruct fuel2.
  - destruct fuel2 as [|fuel2].
    { destruct s; [reflexivity | simpl in H2; lia]. }
    simpl. destruct (match_blank_lines s) as [after|] eqn:E.
    + apply match_blank_lines_shorter in E.
      do 2 f_equal. apply IH; lia.
    + destruct s as [|c rest]; [reflexivity|].
      simpl in H1, H2. f_equal. apply IH; lia.
Qed.

Lemma replace_blank_lines_match s after :
  match_blank_lines s = Some after ->
  replace_blank_lines s = LF :: LF :: replace_blank_lines after.
Proof.
  intros E. unfold replace_blank_lines.
  pose proof (match_blank_lines_shorter s after E) as Hlt.
  destruct (length s) as [|n] eqn:Hn; [lia|].
  simpl. rewrite E. do 2 f_equal.
  apply replace_blank_lines_fuel_enough; lia.
Qed.

Lemma replace_blank_lines_copy c rest :
  match_blank_lines (c :: rest) = None ->
  replace_blank_lines (c :: rest) = c :: replace_blank_lines rest.
Proof.
  intros E. unfold replace_blank_lines.
  cbn [length replace_blank_lines_fuel]. now rewrite E.
Qed.

Lemma replace_blank_lines_prefix a b :
  ~ In LF a -> replace_blank_lines (a ++ b) = a ++ replace_blank_lines b.
Proof.
  induction a as [|c a IH]; intros Hnl; [reflexivity|].
  simpl app. rewrite replace_blank_lines_copy.
  - f_equal. apply IH. intros H. apply Hnl. now right.
  - simpl. destruct (jschar_eqb c LF) eqn:E; [|reflexivity].
    apply N.eqb_eq in E. exfalso. apply Hnl. now left.
Qed.

Lemma match_spaces_newline_none b :
  starts_without_space b -> match_spaces_newline b = None.
Proof.
  destruct b as [|c rest]; simpl; intros H; [reflexivity|].
  rewrite H. destruct (jschar_eqb c LF) eqn:E; [|reflexivity].
  apply N.eqb_eq in E. subst c. discriminate.
Qed.

Lemma match_spaces_newline_run w b :
  Forall (fun c => is_space c = true) w ->
  starts_without_space b ->
  match_spaces_newline (w ++ LF :: b) = Some b.
Proof.
  intros Hw Hb. induction Hw as [|c w Hc _ IH]; simpl.
  - now rewrite match_spaces_newline_none.
  - now rewrite Hc, IH.
Qed.

Lemma htmlToMarkdown_nonempty parseFromString html :
  html <> [] ->
  htmlToMarkdown parseFromString html =
    trim (replace_blank_lines
            (walk (remove_script_style
                     (parseFromString (js "<body>" ++ html ++ js "</body>"))))).
Proof. destruct html; [contradiction | reflexivity]. Qed.

Lemma walk_without_scripts ns name before removed after :
  is_script_or_style removed = true ->
  walk (remove_script_style (Element ns name (before ++ removed :: after)))
  = walk (remove_script_style (Element ns name (before ++ after))).
Proof.
  intros H. rewrite !remove_script_style_Element, !filter_app.
  cbn [filter]. now rewrite H.
Qed.

(** Two paragraphs are separated by one blank line. *)
Example htmlToMarkdown_paragraphs :
  htmlToMarkdown FragmentParser.parseFromString (js "<p>A</p><p>B</p>")
  = js "A" ++ [LF; LF] ++ js "B".
Proof. reflexivity. Qed.

(** C7. The three example fragments convert as listed, whenever the
    parser builds their trees.  In general: a bold element gives its
    children between two pairs of asterisks, a list item gives its trimmed
    children after a hyphen and a space and before a line feed, no script or
    style element is left in the tree that is walked and such an element
    contributes nothing, and two line feeds with only white space between
    them, further line feeds included, are replaced by exactly two line
    feeds. *)
Theorem htmlToMarkdown_examples (parseFromString : jsstring -> Node)
    (Hbold : parseFromString (js "<body><b>Hi</b> there</body>") =
       Element HTMLElement (js "body")
         [Element HTMLElement (js "b") [Text (js "Hi")]; Text (js " there")])
    (Hlist : parseFromString (js "<body><ul><li>one</li><li>two</li></ul></body>") =
       Element HTMLElement (js "body")
         [Element HTMLElement (js "ul")
            [Element HTMLElement (js "li") [Text (js "one")];
             Element HTMLElement (js "li") [Text (js "two")]]])
    (Hscript : parseFromString (js "<body><script>evil()</script>Safe</body>") =
       Element HTMLElement (js "body")
         [Element HTMLElement (js "script") [Text (js "evil()")];
          Text (js "Safe")]) :
  htmlToMarkdown parseFromString (js "<b>Hi</b> there") = js "**Hi** there"
  /\ htmlToMarkdown parseFromString (js "<ul><li>one</li><li>two</li></ul>")
     = js "- one" ++ [LF] ++ js "- two"
  /\ htmlToMarkdown parseFromString (js "<script>evil()</script>Safe")
     = js "Safe"
  /\ (forall children,
        walk (Element HTMLElement (js "b") children)
        = js "**" ++ concat (map walk children) ++ js "**"
        /\ walk (Element HTMLElement (js "strong") children)
           = js "**" ++ concat (map walk children) ++ js "**")
  /\ (forall children,
        walk (Element HTMLElement (js "li") children)
        = js "- " ++ trim (concat (map walk children)) ++ [LF])
  /\ (forall n, no_script_style (remove_script_style n) = true)
  /\ (forall ns name before removed after,
        is_script_or_style removed = true ->
        walk (remove_script_style
                (Element ns name (before ++ removed :: after)))
        = walk (remove_script_style (Element ns name (before ++ after))))
  /\ (forall a w b,
        ~ In LF a ->
        Forall (fun c => is_space c = true) w ->
        starts_without_space b ->
        replace_blank_lines (a ++ LF :: w ++ LF :: b)
        = a ++ LF :: LF :: replace_blank_lines b).
Proof.
  split; [|split; [|split]].
  - rewrite htmlToMarkdown_nonempty by discriminate.
    change (js "<body>" ++ js "<b>Hi</b> there" ++ js "</body>")
      with (js "<body><b>Hi</b> there</body>").
    rewrite Hbold. reflexivity.
  - rewrite htmlToMarkdown_nonempty by discriminate.
    change (js "<body>" ++ js "<ul><li>one</li><li>two</li></ul>"
              ++ js "</body>")
      with (js "<body><ul><li>one</li><li>two</li></ul></body>").
    rewrite Hlist. reflexivity.
  - rewrite htmlToMarkdown_nonempty by discriminate.
    change (js "<body>" ++ js "<script>evil()</script>Safe" ++ js "</body>")
      with (js "<body><script>evil()</script>Safe</body>").
    rewrite Hscript. reflexivity.
  - split; [intros children; split; reflexivity|].
    split; [intros children; reflexivity|].
    split; [exact no_script_style_removed|].
    split; [exact walk_without_scripts|].
    intros a w b Ha Hw Hb.
    rewrite replace_blank_lines_prefix by exact Ha.
    f_equal. apply replace_blank_lines_match.
    cbn [match_blank_lines]. unfold jschar_eqb. rewrite N.eqb_refl.
    now apply match_spaces_newline_run.
Qed.

Lemma htmlToMarkdown_examples_witness :
  htmlToMarkdown FragmentParser.parseFromString (js "<b>Hi</b> there")
    = js "**Hi** there"
  /\ htmlToMarkdown FragmentParser.parseFromString
       (js "<ul><li>one</li><li>two</li></ul>")
     = js "- one" ++ [LF] ++ js "- two"
  /\ htmlToMarkdown FragmentParser.parseFromString
       (js "<script>evil()</script>Safe")
     = js "Safe"
  /\ replace_blank_lines (js "A" ++ LF :: js "  " ++ LF :: js "B")
     = js "A" ++ LF :: LF :: replace_blank_lines (js "B").
Proof.
  destruct (htmlToMarkdown_examples FragmentParser.parseFromString
              ltac:(reflexivity) ltac:(reflexivity) ltac:(reflexivity))
    as (Hbold & Hlist & Hscript & _ & _ & _ & _ & Hcollapse).
  repeat (split; [assumption|]).
  apply Hcollapse.
  - simpl. intros [H|[]]. discriminate.
  - repeat constructor.
  - reflexivity.
Defined.

(** C8. On the empty string the converter returns the empty string
    without parsing.  On every string it returns a string: the parser
    accepts every string, the tree walk is by recursion on the tree, and
    the blank-line scan ends within the steps it is given.  A document
    whose body is empty gives the empty string. *)
Theorem htmlToMarkdown_total (parseFromString : jsstring -> Node) :
  htmlToMarkdown parseFromString (js "") = js ""
  /\ (forall html, exists markdown,
        htmlToMarkdown parseFromString html = markdown)
  /\ (forall html fuel,
        (length (walk (remove_script_style
                         (parseFromString
                            (js "<body>" ++ html ++ js "</body>"))))
         <= fuel)%nat ->
        replace_blank_lines_fuel fuel
          (walk (remove_script_style
                   (parseFromString (js "<body>" ++ html ++ js "</body>"))))
        = replace_blank_lines
            (walk (remove_script_style
                     (parseFromString (js "<body>" ++ html ++ js "</body>")))))
  /\ (forall html,
        parseFromString (js "<body>" ++ html ++ js "</body>")
          = Element HTMLElement (js "body") [] ->
        htmlToMarkdown parseFromString html = js "").
Proof.
  split; [reflexivity|].
  split; [intros html; eexists; reflexivity|].
  split.
  - intros html fuel Hfuel. unfold replace_blank_lines.
    apply replace_blank_lines_fuel_enough; [exact Hfuel | lia].
  - intros [|c html] H; [reflexivity|].
    rewrite htmlToMarkdown_nonempty by discriminate. now rewrite H.
Qed.

Lemma htmlToMarkdown_total_witness :
  htmlToMarkdown FragmentParser.parseFromString (js "") = js ""
  /\ replace_blank_lines_fuel 100
       (walk (remove_script_style
                (FragmentParser.parseFromString
                   (js "<body>" ++ js "<p>A</p><p>B</p>" ++ js "</body>"))))
     = replace_blank_lines
         (walk (remove_script_style
                  (FragmentParser.parseFromString
                     (js "<body>" ++ js "<p>A</p><p>B</p>" ++ js "</body>")))).
Proof.
  destruct (htmlToMarkdown_total FragmentParser.parseFromString)
    as (_ & _ & Hfuel & Hempty).
  split.
  - apply Hempty. reflexivity.
  - apply Hfuel. vm_compute. lia.
Defined.

(* ===================================================================== *)
(** * Further properties of the registry *)
(* ===================================================================== *)

(** ** Deleting *)

Lemma handleDeleteSnippet_app i l1 l2 :
  handleDeleteSnippet i (l1 ++ l2) =
    handleDeleteSnippet i l1 ++ handleDeleteSnippet i l2.
Proof. unfold handleDeleteSnippet. apply filter_app. Qed.

Lemma handleDeleteSnippet_fresh i prev :
  ~ In i (map id prev) -> handleDeleteSnippet i prev = prev.
Proof.
  unfold handleDeleteSnippet.
  induction prev as [|s prev IH]; intros H; [reflexivity|]. simpl.
  destruct (Z.eqb_spec (id s) i) as [E|E]; simpl.
  - exfalso. apply H. now left.
  - f_equal. apply IH. intros Hin. apply H. now right.
Qed.

Lemma handleDeleteSnippet_comm i j prev :
  handleDeleteSnippet i (handleDeleteSnippet j prev)
  = handleDeleteSnippet j (handleDeleteSnippet i prev).
Proof.
  unfold handleDeleteSnippet.
  induction prev as [|s prev IH]; [reflexivity|]. simpl.
  destruct (negb (id s =? j)) eqn:Ej, (negb (id s =? i)) eqn:Ei; simpl;
    rewrite ?Ej, ?Ei; first [exact IH | now rewrite IH].
Qed.

(** X1. Deleting an id leaves no record with that id, keeps every record
    with another id, in the order they had, and is final: deleting the id
    again changes nothing more.  Two deletes give the same list in either
    order. *)
Theorem handleDeleteSnippet_removes_id (i j : Z) (prev : list Snippet) :
  ~ In i (map id (handleDeleteSnippet i prev))
  /\ (forall s, In s (handleDeleteSnippet i prev) <-> In s prev /\ id s <> i)
  /\ (forall l1 l2, prev = l1 ++ l2 ->
        handleDeleteSnippet i prev
        = handleDeleteSnippet i l1 ++ handleDeleteSnippet i l2)
  /\ handleDeleteSnippet i (handleDeleteSnippet i prev)
     = handleDeleteSnippet i prev
  /\ handleDeleteSnippet i (handleDeleteSnippet j prev)
     = handleDeleteSnippet j (handleDeleteSnippet i prev).
Proof.
  assert (Hin : forall s, In s (handleDeleteSnippet i prev)
                          <-> In s prev /\ id s <> i).
  { intros s. unfold handleDeleteSnippet. rewrite filter_In.
    destruct (Z.eqb_spec (id s) i); simpl; intuition congruence. }
  assert (Hgone : ~ In i (map id (handleDeleteSnippet i prev))).
  { intros H. apply in_map_iff in H as (s & Hs & Hmem).
    apply Hin in Hmem. tauto. }
  split; [exact Hgone|]. split; [exact Hin|]. split; [|split].
  - intros l1 l2 ->. apply handleDeleteSnippet_app.
  - now apply handleDeleteSnippet_fresh.
  - apply handleDeleteSnippet_comm.
Qed.

(** X2. Deleting the id of a record just added takes that record out
    again, together with every older record that carries the same id; when
    the id was not in use, the list is the one before the add. *)
Theorem handleDeleteSnippet_undoes_add (now : Z) (T : SnippetType)
    (prev : list Snippet) :
  handleDeleteSnippet now (handleAddSnippet now T prev)
    = handleDeleteSnippet now prev
  /\ (~ In now (map id prev) ->
      handleDeleteSnippet now (handleAddSnippet now T prev) = prev).
Proof.
  assert (H : handleDeleteSnippet now (handleAddSnippet now T prev)
              = handleDeleteSnippet now prev).
  { unfold handleAddSnippet. destruct (SnippetType_eqb T meta).
    - unfold handleDeleteSnippet. cbn [filter newSnippet id].
      now rewrite Z.eqb_refl.
    - rewrite handleDeleteSnippet_app.
      unfold handleDeleteSnippet at 2. cbn [filter newSnippet id].
      rewrite Z.eqb_refl. apply app_nil_r. }
  split; [exact H|]. intros Hfresh. rewrite H.
  now apply handleDeleteSnippet_fresh.
Qed.

Lemma handleDeleteSnippet_undoes_add_witness :
  handleDeleteSnippet 7 (handleAddSnippet 7 lesson
                           [newSnippet 1 meta; newSnippet 2 verse])
  = [newSnippet 1 meta; newSnippet 2 verse].
Proof.
  apply (handleDeleteSnippet_undoes_add 7 lesson
           [newSnippet 1 meta; newSnippet 2 verse]).
  simpl. intros H. lia.
Defined.

(** ** Updating *)

Lemma typed_any s : typed (any s) = Some s.
Proof. now destruct s as [i [] d]. Qed.

Lemma handleUpdateSnippet_app i p l1 l2 :
  handleUpdateSnippet i p (l1 ++ l2) =
    handleUpdateSnippet i p l1 ++ handleUpdateSnippet i p l2.
Proof. unfold handleUpdateSnippet. apply map_app. Qed.

Lemma handleUpdateSnippet_fresh i p prev :
  ~ In i (map any_id prev) -> handleUpdateSnippet i p prev = prev.
Proof.
  unfold handleUpdateSnippet.
  induction prev as [|s prev IH]; intros H; [reflexivity|]. simpl.
  destruct (Z.eqb_spec (any_id s) i) as [E|E].
  - exfalso. apply H. now left.
  - f_equal. apply IH. intros Hin. apply H. now right.
Qed.

(** X3. An update leaves the list as it is when no record has the id.
    In every case it keeps the length of the list and the id and the kind
    of the record at each position; the record at a position is the one
    that was there when its id is another one, and carries the new payload
    when its id is the one updated. *)
Theorem handleUpdateSnippet_touches_only_the_id (i : Z) (p : Payload)
    (prev : list AnySnippet) :
  (~ In i (map any_id prev) -> handleUpdateSnippet i p prev = prev)
  /\ length (handleUpdateSnippet i p prev) = length prev
  /\ map any_id (handleUpdateSnippet i p prev) = map any_id prev
  /\ map any_type (handleUpdateSnippet i p prev) = map any_type prev
  /\ (forall k s, nth_error prev k = Some s -> any_id s <> i ->
        nth_error (handleUpdateSnippet i p prev) k = Some s)
  /\ (forall k s, nth_error prev k = Some s -> any_id s = i ->
        nth_error (handleUpdateSnippet i p prev) k
        = Some {| any_id := i; any_type := any_type s; any_data := p |}).
Proof.
  split; [apply handleUpdateSnippet_fresh|].
  unfold handleUpdateSnippet.
  split; [apply length_map|].
  split; [|split; [|split]].
  - rewrite map_map. apply map_ext. intros s.
    now destruct (any_id s =? i).
  - rewrite map_map. apply map_ext. intros s.
    now destruct (any_id s =? i).
  - intros k s Hk Hne. rewrite nth_error_map, Hk. simpl.
    destruct (Z.eqb_spec (any_id s) i); [contradiction | reflexivity].
  - intros k s Hk <-. rewrite nth_error_map, Hk. simpl.
    now rewrite Z.eqb_refl.
Qed.

Lemma handleUpdateSnippet_touches_only_the_id_witness :
  handleUpdateSnippet 9 (existT SnippetDataMap lesson
                           {| lesson_content := js "x" |})
    [any (newSnippet 1 verse); any (newSnippet 2 lesson)]
  = [any (newSnippet 1 verse); any (newSnippet 2 lesson)]
  /\ nth_error
       (handleUpdateSnippet 2 (existT SnippetDataMap lesson
                                 {| lesson_content := js "x" |})
          [any (newSnippet 1 verse); any (newSnippet 2 lesson)]) 0
     = Some (any (newSnippet 1 verse))
  /\ nth_error
       (handleUpdateSnippet 2 (existT SnippetDataMap lesson
                                 {| lesson_content := js "x" |})
          [any (newSnippet 1 verse); any (newSnippet 2 lesson)]) 1
     = Some {| any_id := 2; any_type := lesson;
               any_data := existT SnippetDataMap lesson
                             {| lesson_content := js "x" |} |}.
Proof.
  split; [|split].
  - apply (handleUpdateSnippet_touches_only_the_id 9).
    simpl. intros H. lia.
  - apply (handleUpdateSnippet_touches_only_the_id 2
             (existT SnippetDataMap lesson {| lesson_content := js "x" |})
             [any (newSnippet 1 verse); any (newSnippet 2 lesson)]).
    + reflexivity.
    + simpl. lia.
  - apply (handleUpdateSnippet_touches_only_the_id 2
             (existT SnippetDataMap lesson {| lesson_content := js "x" |})
             [any (newSnippet 1 verse); any (newSnippet 2 lesson)]
             ) with (s := any (newSnippet 2 lesson)); reflexivity.
Defined.

(** X4. Of two updates of one id the later one decides: the earlier
    payload is gone.  Updates of two different ids give the same list in
    either order. *)
Theorem handleUpdateSnippet_last_wins (i j : Z) (p q : Payload)
    (prev : list AnySnippet) (Hij : i <> j) :
  handleUpdateSnippet i q (handleUpdateSnippet i p prev)
    = handleUpdateSnippet i q prev
  /\ handleUpdateSnippet i p (handleUpdateSnippet j q prev)
     = handleUpdateSnippet j q (handleUpdateSnippet i p prev).
Proof.
  unfold handleUpdateSnippet. rewrite !map_map. split.
  - apply map_ext. intros s.
    destruct (any_id s =? i) eqn:E; cbn [any_id any_type]; now rewrite E.
  - apply map_ext. intros s.
    destruct (any_id s =? i) eqn:Ei, (any_id s =? j) eqn:Ej;
      cbn [any_id any_type]; rewrite ?Ei, ?Ej; try reflexivity.
    apply Z.eqb_eq in Ei, Ej. congruence.
Qed.

Lemma handleUpdateSnippet_last_wins_witness :
  handleUpdateSnippet 2 (existT SnippetDataMap lesson
                           {| lesson_content := js "b" |})
    (handleUpdateSnippet 2 (existT SnippetDataMap lesson
                              {| lesson_content := js "a" |})
       [any (newSnippet 2 lesson)])
  = handleUpdateSnippet 2 (existT SnippetDataMap lesson
                             {| lesson_content := js "b" |})
      [any (newSnippet 2 lesson)].
Proof.
  apply (handleUpdateSnippet_last_wins 2 3
           (existT SnippetDataMap lesson {| lesson_content := js "a" |})
           (existT SnippetDataMap lesson {| lesson_content := js "b" |})
           [any (newSnippet 2 lesson)]).
  lia.
Defined.

Lemma handleUpdateSnippet_any_fresh i p l :
  ~ In i (map id l) ->
  handleUpdateSnippet i p (map any l) = map any l.
Proof.
  intros H. apply handleUpdateSnippet_fresh.
  rewrite map_map. exact H.
Qed.

Lemma onChange_distinct_ids (l1 l2 : list Snippet) (s : Snippet)
    (edit : SnippetDataMap (type s) -> SnippetDataMap (type s)) :
  NoDup (map id (l1 ++ s :: l2)) ->
  onChange s edit (map any (l1 ++ s :: l2))
    = map any (l1 ++ Build_Snippet (id s) (type s) (edit (data s)) :: l2).
Proof.
  intros Hids.
  assert (Hnotin : ~ In (id s) (map id l1) /\ ~ In (id s) (map id l2)).
  { rewrite map_app in Hids. simpl in Hids.
    apply NoDup_remove_2 in Hids. split; intros H; apply Hids, in_or_app;
      [now left | now right]. }
  destruct Hnotin as [H1 H2].
  unfold onChange. rewrite !map_app. cbn [map].
  rewrite handleUpdateSnippet_app, handleUpdateSnippet_any_fresh by exact H1.
  f_equal. unfold handleUpdateSnippet at 1. cbn [map].
  change (any_id (any s)) with (id s). rewrite Z.eqb_refl.
  f_equal. fold (handleUpdateSnippet (id s)
                   (existT SnippetDataMap (type s) (edit (data s)))
                   (map any l2)).
  now apply handleUpdateSnippet_any_fresh.
Qed.

(** X5. When the ids of the list are pairwise distinct, a change made in
    the form of a record replaces the payload of that record and nothing
    else: the list after it is the list before with the one record
    renewed, each record still with a payload of its kind. *)
Theorem onChange_renews_one_record (l1 l2 : list Snippet) (s : Snippet)
    (edit : SnippetDataMap (type s) -> SnippetDataMap (type s))
    (Hids : NoDup (map id (l1 ++ s :: l2))) :
  onChange s edit (map any (l1 ++ s :: l2))
    = map any (l1 ++ Build_Snippet (id s) (type s) (edit (data s)) :: l2)
  /\ map typed (onChange s edit (map any (l1 ++ s :: l2)))
     = map Some (l1 ++ Build_Snippet (id s) (type s) (edit (data s)) :: l2).
Proof.
  pose proof (onChange_distinct_ids l1 l2 s edit Hids) as E.
  split; [exact E|]. rewrite E, map_map. apply map_ext, typed_any.
Qed.

Lemma onChange_renews_one_record_witness :
  onChange (newSnippet 2 paragraph)
    (fun _ => {| paragraph_content := js "text" |})
    (map any [newSnippet 1 meta; newSnippet 2 paragraph; newSnippet 3 verse])
  = map any [newSnippet 1 meta;
             Build_Snippet 2 paragraph {| paragraph_content := js "text" |};
             newSnippet 3 verse].
Proof.
  apply (onChange_renews_one_record [newSnippet 1 meta]
           [newSnippet 3 verse] (newSnippet 2 paragraph)
           (fun _ => {| paragraph_content := js "text" |})).
  simpl. repeat constructor; simpl; intros H; lia.
Defined.

(** X6. When another record of the list carries the id of the changed
    record, it receives the payload too; if it is of another kind, it is
    left with a payload that is not of its kind. *)
Theorem onChange_overwrites_records_sharing_the_id
    (s r : Snippet) (prev : list Snippet)
    (edit : SnippetDataMap (type s) -> SnippetDataMap (type s))
    (Hin : In r prev) (Hid : id r = id s) (Hkind : type r <> type s) :
  In {| any_id := id r; any_type := type r;
        any_data := existT SnippetDataMap (type s) (edit (data s)) |}
     (onChange s edit (map any prev))
  /\ typed {| any_id := id r; any_type := type r;
              any_data := existT SnippetDataMap (type s) (edit (data s)) |}
     = None.
Proof.
  split.
  - unfold onChange, handleUpdateSnippet. rewrite map_map.
    apply in_map_iff. exists r. split; [|exact Hin].
    change (any_id (any r)) with (id r). rewrite Hid, Z.eqb_refl.
    reflexivity.
  - unfold typed. cbn [any_data any_type].
    destruct (SnippetType_eqb (type s) (type r)) eqn:E; [|reflexivity].
    apply SnippetType_eqb_eq in E. congruence.
Qed.

Lemma onChange_overwrites_records_sharing_the_id_witness :
  In {| any_id := 5; any_type := verse;
        any_data := existT SnippetDataMap lesson
                      {| lesson_content := js "x" |} |}
     (onChange (newSnippet 5 lesson)
        (fun _ => {| lesson_content := js "x" |})
        (map any [newSnippet 5 verse; newSnippet 5 lesson])).
Proof.
  apply (onChange_overwrites_records_sharing_the_id
           (newSnippet 5 lesson) (newSnippet 5 verse)
           [newSnippet 5 verse; newSnippet 5 lesson]
           (fun _ => {| lesson_content := js "x" |})).
  - now left.
  - reflexivity.
  - discriminate.
Defined.

(** ** The Meta record *)

Lemma count_meta_app l1 l2 :
  count_meta (l1 ++ l2) = (count_meta l1 + count_meta l2)%nat.
Proof. unfold count_meta. now rewrite filter_app, length_app. Qed.

(** X7. Whatever buttons of the selector and delete buttons are pressed,
    from the empty list on, [metaExists] is true exactly when the list
    holds one Meta record, and false exactly when it holds none. *)
Theorem metaExists_iff_one_meta (actions : list UserAction) :
  (metaExists (fold_left act actions []) = true
   <-> count_meta (fold_left act actions []) = 1%nat)
  /\ (metaExists (fold_left act actions []) = false
      <-> count_meta (fold_left act actions []) = 0%nat).
Proof.
  pose proof (at_most_one_meta actions) as Hle.
  pose proof (metaExists_count_meta (fold_left act actions [])) as H0.
  split; [|exact H0].
  destruct (metaExists (fold_left act actions [])).
  - split; [intros _ | reflexivity].
    destruct (count_meta (fold_left act actions [])) as [|[|n]];
      [|reflexivity | lia].
    destruct H0 as [_ H0]. specialize (H0 eq_refl). discriminate.
  - split; [discriminate|]. intros H1.
    destruct H0 as [H0 _]. specialize (H0 eq_refl). lia.
Qed.

Lemma meta_only_first_act l a :
  meta_only_first l -> meta_only_first (act l a).
Proof.
  unfold meta_only_first. intros H. destruct a as [now button | i]; cbn [act].
  - unfold SnippetSelector_click.
    destruct (SnippetType_eqb button meta) eqn:E; cbn [andb].
    + destruct (metaExists l) eqn:M; [exact H|].
      unfold handleAddSnippet. rewrite E. cbn [tl].
      now apply metaExists_count_meta.
    + unfold handleAddSnippet. rewrite E.
      destruct l as [|s l]; cbn [app tl] in *.
      * reflexivity.
      * rewrite count_meta_app, H. unfold count_meta. cbn [filter].
        unfold is_meta. cbn [type newSnippet]. now rewrite E.
  - unfold handleDeleteSnippet.
    destruct l as [|s l]; cbn [filter tl] in *; [reflexivity|].
    pose proof (count_meta_handleDeleteSnippet i l) as Hdel.
    unfold handleDeleteSnippet in Hdel.
    destruct (negb (id s =? i)); cbn [tl]; [lia|].
    destruct (filter (fun s0 => negb (id s0 =? i)) l) as [|t rest] eqn:F;
      [reflexivity|].
    cbn [tl]. unfold count_meta in *. cbn [filter] in Hdel.
    destruct (is_meta t); cbn [length] in Hdel; lia.
Qed.

Lemma meta_only_first_position l k s :
  meta_only_first l -> nth_error l k = Some s -> is_meta s = true -> k = 0%nat.
Proof.
  unfold meta_only_first, count_meta. intros H Hk Hs.
  destruct k as [|k]; [reflexivity|]. destruct l as [|t l]; [discriminate|].
  cbn [tl nth_error] in *. apply nth_error_In in Hk.
  assert (Hin : In s (filter is_meta l)) by (apply filter_In; now split).
  destruct (filter is_meta l); [contradiction | discriminate].
Qed.

Lemma meta_only_first_actions actions l :
  meta_only_first l -> meta_only_first (fold_left act actions l).
Proof.
  revert l. induction actions as [|a actions IH]; intros l Hl; [exact Hl|].
  cbn [fold_left]. apply IH. now apply meta_only_first_act.
Qed.

(** X8. As long as records are only added through the selector and
    deleted, a Meta record is the first record of the list: no position
    after the first one holds a record of kind Meta. *)
Theorem meta_record_is_first (actions : list UserAction) (k : nat)
    (s : Snippet)
    (Hk : nth_error (fold_left act actions []) k = Some s)
    (Hmeta : type s = meta) :
  k = 0%nat.
Proof.
  apply (meta_only_first_position (fold_left act actions []) k s).
  - apply meta_only_first_actions. reflexivity.
  - exact Hk.
  - unfold is_meta. now rewrite Hmeta.
Qed.

Lemma meta_record_is_first_witness :
  nth_error (fold_left act [PressAdd 1 verse; PressAdd 2 lesson;
                            PressAdd 3 meta; PressDelete 1] []) 0
    = Some (newSnippet 3 meta)
  /\ (0 = 0)%nat.
Proof.
  split; [reflexivity|].
  apply (meta_record_is_first
           [PressAdd 1 verse; PressAdd 2 lesson; PressAdd 3 meta;
            PressDelete 1] 0 (newSnippet 3 meta)); reflexivity.
Defined.

(* ===================================================================== *)
(** * Further properties of the serializer and of the file name *)
(* ===================================================================== *)

Lemma serialize_snippet_payload s :
  serialize_snippet s = payload_object (any_data (any s)).
Proof. now destruct s as [i [] d]. Qed.

Lemma serialize_newSnippet now T :
  serialize [newSnippet now T] = default_object T.
Proof. now destruct T. Qed.

(** X9. The output does not depend on the ids: two lists whose records
    have, position by position, the same kind and payload give the same
    array. *)
Theorem serialize_ignores_ids (l1 l2 : list Snippet)
    (Hsame : map (fun s => any_data (any s)) l1
             = map (fun s => any_data (any s)) l2) :
  serialize l1 = serialize l2.
Proof.
  unfold serialize. f_equal.
  rewrite !(map_ext serialize_snippet
              (fun s => payload_object (any_data (any s)))
              serialize_snippet_payload).
  rewrite <- (map_map (fun s => any_data (any s)) payload_object l1).
  rewrite <- (map_map (fun s => any_data (any s)) payload_object l2).
  now rewrite Hsame.
Qed.

Lemma serialize_ignores_ids_witness :
  serialize [newSnippet 1 verse; newSnippet 2 prayer]
  = serialize [newSnippet 30 verse; newSnippet 40 prayer].
Proof.
  apply (serialize_ignores_ids [newSnippet 1 verse; newSnippet 2 prayer]
           [newSnippet 30 verse; newSnippet 40 prayer]).
  reflexivity.
Defined.

(** X10. An added record shows in the output as the object of the
    default payload of its kind: in front of the objects that were there
    for a Meta record, after them for another kind.  The default objects
    have every text empty, the language English and the prayer title
    Prayer. *)
Theorem serialize_after_add (now : Z) (T : SnippetType)
    (prev : list Snippet) (Hkind : T <> meta) :
  serialize (handleAddSnippet now meta prev)
    = default_object meta ++ serialize prev
  /\ serialize (handleAddSnippet now T prev)
     = serialize prev ++ default_object T
  /\ default_object meta =
       [[ (js "type", js "meta"); (js "title", js "");
          (js "language", js "English"); (js "date", js "");
          (js "youtubeUrl", js ""); (js "pdfUrl", js "");
          (js "imageUrl", js "") ]]
  /\ default_object verse =
       [[ (js "type", js "verse"); (js "reference", js "");
          (js "text", js "") ]]
  /\ default_object paragraph =
       [[ (js "type", js "paragraph"); (js "content", js "") ]]
  /\ default_object prayer =
       [[ (js "type", js "prayer"); (js "title", js "Prayer");
          (js "text", js "") ]]
  /\ default_object lesson =
       [[ (js "type", js "lesson"); (js "content", js "") ]].
Proof.
  split; [|split; [|repeat split]].
  - change (handleAddSnippet now meta prev)
      with ([newSnippet now meta] ++ prev).
    now rewrite serialize_app, serialize_newSnippet.
  - unfold handleAddSnippet.
    destruct (SnippetType_eqb T meta) eqn:E.
    + apply SnippetType_eqb_eq in E. contradiction.
    + now rewrite serialize_app, serialize_newSnippet.
Qed.

Lemma serialize_after_add_witness :
  serialize (handleAddSnippet 5 prayer [newSnippet 1 verse])
  = serialize [newSnippet 1 verse] ++ default_object prayer.
Proof.
  apply (serialize_after_add 5 prayer [newSnippet 1 verse]).
  discriminate.
Defined.

Lemma filter_Boolean_Permutation {A : Type} (a b : list (option A)) :
  Permutation a b -> Permutation (filter_Boolean a) (filter_Boolean b).
Proof.
  induction 1 as [|x a b _ IH|x y a|a b c _ IH1 _ IH2].
  - constructor.
  - destruct x as [o|]; simpl; [now constructor | exact IH].
  - destruct x as [o|], y as [o'|]; simpl;
      try reflexivity. apply perm_swap.
  - now transitivity (filter_Boolean b).
Qed.

Lemma serialize_Permutation l l' :
  Permutation l l' -> Permutation (serialize l) (serialize l').
Proof.
  intros H. unfold serialize.
  now apply filter_Boolean_Permutation, Permutation_map.
Qed.

(** A drop of a record of the list rearranges the list. *)
Lemma handleDrop_rearranges prev current index :
  (forall source, current = Some source ->
     prev <> [] /\ source < Z.of_nat (length prev)) ->
  exists after,
    handleDrop current index prev = map Some after /\ Permutation prev after.
Proof.
  intros Hdrag. destruct current as [source|].
  2:{ exists prev. now split. }
  destruct (Hdrag source eq_refl) as [Hne Hlt].
  destruct (Z.eq_dec source index) as [->|Hdiff].
  { exists prev. unfold handleDrop. rewrite Z.eqb_refl. now split. }
  assert (Hpos : (source_position prev source < length prev)%nat).
  { unfold source_position, actual_start.
    destruct prev as [|s prev]; [contradiction|]. simpl length in *.
    destruct (source <? 0) eqn:E; lia. }
  destruct (nth_error prev (source_position prev source)) as [moved|] eqn:Hnth.
  2:{ apply nth_error_None in Hnth. lia. }
  exists (insert_at (target_position prev index) moved
            (remove_at (source_position prev source) prev)).
  split; [now apply handleDrop_moves | now apply Permutation_insert_remove].
Qed.

(** X11. A drop of a record of the list changes the output only in the
    order of its objects: the output after the drop holds the same
    objects, as many times each, as the output before. *)
Theorem serialize_after_drop (prev : list Snippet) (current : option Z)
    (index : Z)
    (Hdrag : forall source, current = Some source ->
               prev <> [] /\ source < Z.of_nat (length prev)) :
  exists after,
    handleDrop current index prev = map Some after
    /\ Permutation (serialize prev) (serialize after)
    /\ length (serialize after) = length (serialize prev).
Proof.
  destruct (handleDrop_rearranges prev current index Hdrag)
    as (after & Hdrop & Hperm).
  exists after. split; [exact Hdrop|].
  pose proof (serialize_Permutation prev after Hperm) as Hs.
  split; [exact Hs|]. symmetry. now apply Permutation_length.
Qed.

Lemma serialize_after_drop_witness :
  exists after,
    handleDrop (Some 0) 1 [newSnippet 1 verse; newSnippet 2 prayer]
      = map Some after
    /\ Permutation (serialize [newSnippet 1 verse; newSnippet 2 prayer])
         (serialize after)
    /\ length (serialize after)
       = length (serialize [newSnippet 1 verse; newSnippet 2 prayer]).
Proof.
  apply (serialize_after_drop [newSnippet 1 verse; newSnippet 2 prayer]
           (Some 0) 1).
  intros source H. injection H as <-. split; [discriminate | simpl; lia].
Defined.

(** X12. With pairwise distinct ids, a change made in the form of a
    record changes the output at the object of that record only: the
    objects of the records before it and after it are the ones that were
    there. *)
Theorem serialize_after_onChange (l1 l2 : list Snippet) (s : Snippet)
    (edit : SnippetDataMap (type s) -> SnippetDataMap (type s))
    (Hids : NoDup (map id (l1 ++ s :: l2))) :
  exists next,
    onChange s edit (map any (l1 ++ s :: l2)) = map any next
    /\ serialize (l1 ++ s :: l2)
       = serialize l1 ++ serialize [s] ++ serialize l2
    /\ serialize next
       = serialize l1
           ++ serialize [Build_Snippet (id s) (type s) (edit (data s))]
           ++ serialize l2.
Proof.
  exists (l1 ++ Build_Snippet (id s) (type s) (edit (data s)) :: l2).
  split; [now apply onChange_distinct_ids|].
  split.
  - change (s :: l2) with ([s] ++ l2). now rewrite !serialize_app.
  - change (Build_Snippet (id s) (type s) (edit (data s)) :: l2)
      with ([Build_Snippet (id s) (type s) (edit (data s))] ++ l2).
    now rewrite !serialize_app.
Qed.

Lemma serialize_after_onChange_witness :
  exists next,
    onChange (newSnippet 2 lesson) (fun _ => {| lesson_content := js "x" |})
      (map any ([newSnippet 1 verse] ++ newSnippet 2 lesson :: []))
      = map any next
    /\ serialize ([newSnippet 1 verse] ++ newSnippet 2 lesson :: [])
       = serialize [newSnippet 1 verse] ++ serialize [newSnippet 2 lesson]
           ++ serialize []
    /\ serialize next
       = serialize [newSnippet 1 verse]
           ++ serialize [Build_Snippet 2 lesson {| lesson_content := js "x" |}]
           ++ serialize [].
Proof.
  apply (serialize_after_onChange [newSnippet 1 verse] []
           (newSnippet 2 lesson) (fun _ => {| lesson_content := js "x" |})).
  simpl. repeat constructor; simpl; intros H; lia.
Defined.

(** ** The file name *)

Lemma download_filename_first_meta pre m post :
  metaExists pre = false -> is_meta m = true ->
  download_filename (pre ++ m :: post) = download_filename [m].
Proof.
  intros Hpre Hm. unfold download_filename.
  rewrite find_is_meta_first by assumption.
  cbn [find]. now rewrite Hm.
Qed.

Lemma download_filename_json l :
  exists stem, download_filename l = stem ++ js ".json".
Proof.
  unfold download_filename.
  destruct (find is_meta l) as [[i [] d]|];
    try (exists (js "content"); reflexivity).
  destruct (meta_date d) as [|c date] eqn:E.
  - exists (js "content"). reflexivity.
  - eexists. rewrite !app_assoc. reflexivity.
Qed.

(** X13. The file name is decided by the first Meta record of the list
    alone: the records before it, which are of other kinds, and all the
    records after it, further Meta records included, play no part.  The
    name always ends in [.json]. *)
Theorem download_filename_first_meta_decides (pre post : list Snippet)
    (m : Snippet) (Hpre : metaExists pre = false) (Hm : type m = meta) :
  download_filename (pre ++ m :: post) = download_filename [m]
  /\ exists stem, download_filename (pre ++ m :: post) = stem ++ js ".json".
Proof.
  split; [|apply download_filename_json].
  apply download_filename_first_meta; [exact Hpre|].
  unfold is_meta. now rewrite Hm.
Qed.

Lemma download_filename_first_meta_decides_witness :
  download_filename ([newSnippet 1 verse]
                       ++ meta_snippet 2 Tamil (js "2024-03-07")
                       :: [meta_snippet 3 English (js "1999-01-02")])
  = download_filename [meta_snippet 2 Tamil (js "2024-03-07")].
Proof.
  apply (download_filename_first_meta_decides [newSnippet 1 verse]
           [meta_snippet 3 English (js "1999-01-02")]
           (meta_snippet 2 Tamil (js "2024-03-07"))); reflexivity.
Defined.

Lemma find_is_meta_app_none l1 l2 :
  metaExists l2 = false -> find is_meta (l1 ++ l2) = find is_meta l1.
Proof.
  intros H. induction l1 as [|s l1 IH]; simpl.
  - now apply find_is_meta_none.
  - now destruct (is_meta s).
Qed.

(** X14. Adding a Meta record makes the file name the default one,
    whatever the list held, since the new record comes first and has no
    date; adding a record of another kind leaves the file name as it
    was. *)
Theorem download_filename_after_add (now : Z) (T : SnippetType)
    (prev : list Snippet) (Hkind : T <> meta) :
  download_filename (handleAddSnippet now meta prev) = js "content.json"
  /\ download_filename (handleAddSnippet now T prev)
     = download_filename prev.
Proof.
  split; [reflexivity|].
  unfold handleAddSnippet, download_filename.
  destruct (SnippetType_eqb T meta) eqn:E.
  - apply SnippetType_eqb_eq in E. contradiction.
  - rewrite find_is_meta_app_none; [reflexivity|].
    unfold metaExists, is_meta. cbn [existsb type newSnippet].
    now rewrite E.
Qed.

Lemma download_filename_after_add_witness :
  download_filename
    (handleAddSnippet 9 verse [meta_snippet 2 Tamil (js "2024-03-07")])
  = download_filename [meta_snippet 2 Tamil (js "2024-03-07")].
Proof.
  apply (download_filename_after_add 9 verse
           [meta_snippet 2 Tamil (js "2024-03-07")]).
  discriminate.
Defined.

Lemma count_meta_Permutation l l' :
  Permutation l l' -> count_meta l = count_meta l'.
Proof.
  intros H. unfold count_meta.
  apply Permutation_length. clear - H.
  induction H as [|x a b _ IH|x y a|a b c _ IH1 _ IH2]; simpl.
  - constructor.
  - destruct (is_meta x); [now constructor | exact IH].
  - destruct (is_meta x), (is_meta y); try reflexivity. apply perm_swap.
  - now transitivity (filter is_meta b).
Qed.

Lemma find_is_meta_Permutation l l' :
  Permutation l l' -> (count_meta l <= 1)%nat ->
  find is_meta l = find is_meta l'.
Proof.
  induction 1 as [|x a b Hab IH|x y a|a b c Hab IH1 Hbc IH2]; intros Hle.
  - reflexivity.
  - simpl. destruct (is_meta x) eqn:E; [reflexivity|].
    apply IH. unfold count_meta in *. simpl in Hle. now rewrite E in Hle.
  - simpl. destruct (is_meta x) eqn:Ex, (is_meta y) eqn:Ey; try reflexivity.
    unfold count_meta in Hle. simpl in Hle. rewrite Ex, Ey in Hle.
    simpl in Hle. lia.
  - rewrite IH1 by exact Hle. apply IH2.
    now rewrite <- (count_meta_Permutation a b Hab).
Qed.

(** X15. When the list holds at most one Meta record, a drop of a record
    of the list leaves the file name as it was. *)
Theorem download_filename_after_drop (prev : list Snippet)
    (current : option Z) (index : Z)
    (Hmeta : (count_meta prev <= 1)%nat)
    (Hdrag : forall source, current = Some source ->
               prev <> [] /\ source < Z.of_nat (length prev)) :
  exists after,
    handleDrop current index prev = map Some after
    /\ download_filename after = download_filename prev.
Proof.
  destruct (handleDrop_rearranges prev current index Hdrag)
    as (after & Hdrop & Hperm).
  exists after. split; [exact Hdrop|].
  unfold download_filename.
  now rewrite (find_is_meta_Permutation prev after Hperm Hmeta).
Qed.

Lemma download_filename_after_drop_witness :
  exists after,
    handleDrop (Some 0) 1 [meta_snippet 2 Tamil (js "2024-03-07");
                           newSnippet 3 verse]
      = map Some after
    /\ download_filename after
       = download_filename [meta_snippet 2 Tamil (js "2024-03-07");
                            newSnippet 3 verse].
Proof.
  apply (download_filename_after_drop
           [meta_snippet 2 Tamil (js "2024-03-07"); newSnippet 3 verse]
           (Some 0) 1).
  - unfold count_meta. simpl. lia.
  - intros source H. injection H as <-. split; [discriminate | simpl; lia].
Defined.

(** X16. With pairwise distinct ids and the Meta record the first of
    its kind, setting its date in the date field to a year, a month and a
    day between hyphens makes the file name the day, the month, the year
    and the code of the language of the record. *)
Theorem download_filename_after_date_change (l1 l2 : list Snippet)
    (i : Z) (d : MetaData) (year month day : jsstring)
    (Hids : NoDup (map id (l1 ++ Build_Snippet i meta d :: l2)))
    (Hfirst : metaExists l1 = false)
    (Hyear : ~ In (N_of_ascii "-"%char) year)
    (Hmonth : ~ In (N_of_ascii "-"%char) month)
    (Hday : ~ In (N_of_ascii "-"%char) day) :
  exists next,
    onChange (Build_Snippet i meta d)
      (set_meta_date (year ++ js "-" ++ month ++ js "-" ++ day))
      (map any (l1 ++ Build_Snippet i meta d :: l2))
    = map any next
    /\ download_filename next =
         day ++ js "-" ++ month ++ js "-" ++ year ++ js "-"
           ++ (match meta_language d with
               | Tamil => js "TA"
               | English => js "EN"
               end)
           ++ js ".json".
Proof.
  exists (l1 ++ Build_Snippet i meta
                  (set_meta_date (year ++ js "-" ++ month ++ js "-" ++ day) d)
             :: l2).
  split.
  - exact (onChange_distinct_ids l1 l2 (Build_Snippet i meta d)
             (set_meta_date (year ++ js "-" ++ month ++ js "-" ++ day))
             Hids).
  - cbn [id type data].
    apply (download_filename_of_date l1 i
             (set_meta_date (year ++ js "-" ++ month ++ js "-" ++ day) d)
             l2 year month day); try assumption.
    reflexivity.
Qed.

Lemma download_filename_after_date_change_witness :
  exists next,
    onChange (meta_snippet 2 Tamil (js ""))
      (set_meta_date (js "2024" ++ js "-" ++ js "03" ++ js "-" ++ js "07"))
      (map any ([newSnippet 1 verse] ++ meta_snippet 2 Tamil (js "") :: []))
    = map any next
    /\ download_filename next = js "07-03-2024-TA.json".
Proof.
  apply (download_filename_after_date_change [newSnippet 1 verse] [] 2
           {| meta_title := []; meta_language := Tamil; meta_date := js "";
              meta_youtubeUrl := []; meta_pdfUrl := []; meta_imageUrl := [] |}
           (js "2024") (js "03") (js "07")).
  - simpl. repeat constructor; simpl; intros H; lia.
  - reflexivity.
  - vm_compute. intros H. repeat (destruct H as [H|H]; [discriminate|]).
    exact H.
  - vm_compute. intros H. repeat (destruct H as [H|H]; [discriminate|]).
    exact H.
  - vm_compute. intros H. repeat (destruct H as [H|H]; [discriminate|]).
    exact H.
Defined.

(* ===================================================================== *)
(** * Further properties of the converter *)
(* ===================================================================== *)

(** ** Trimming *)

Lemma trimStart_split s :
  exists p, s = p ++ trimStart s /\ Forall (fun c => is_space c = true) p.
Proof.
  induction s as [|c s (p & IH & Hp)]; simpl.
  - exists []. now split.
  - destruct (is_space c) eqn:E.
    + exists (c :: p). split; [simpl; f_equal; exact IH | now constructor].
    + exists []. now split.
Qed.

Lemma trimStart_starts s : starts_without_space (trimStart s).
Proof.
  induction s as [|c s IH]; simpl; [exact I|].
  destruct (is_space c) eqn:E; [exact IH | exact E].
Qed.

Lemma trimStart_fixed s : starts_without_space s -> trimStart s = s.
Proof. destruct s as [|c s]; simpl; intros H; [|rewrite H]; reflexivity. Qed.

(** The trimmed text lies in the text, between white space. *)
Lemma trim_split s :
  exists p q, s = p ++ trim s ++ q
              /\ Forall (fun c => is_space c = true) p
              /\ Forall (fun c => is_space c = true) q.
Proof.
  unfold trim.
  destruct (trimStart_split s) as (p & Hs & Hp).
  destruct (trimStart_split (rev (trimStart s))) as (q & Hr & Hq).
  exists p, (rev q). split; [|split; [exact Hp | now apply Forall_rev]].
  rewrite Hs at 1. f_equal.
  rewrite <- (rev_involutive (trimStart s)), Hr at 1.
  now rewrite rev_app_distr.
Qed.

Lemma trim_trimmed s : trimmed (trim s).
Proof.
  unfold trimmed, trim. rewrite rev_involutive.
  split; [|apply trimStart_starts].
  destruct (trimStart_split (rev (trimStart s))) as (q & Hr & Hq).
  pose proof (trimStart_starts s) as Hstart.
  apply (f_equal (@rev jschar)) in Hr.
  rewrite rev_involutive, rev_app_distr in Hr.
  destruct (rev (trimStart (rev (trimStart s)))) as [|c v]; [exact I|].
  rewrite Hr in Hstart. exact Hstart.
Qed.

Lemma trim_fixed s : trimmed s -> trim s = s.
Proof.
  intros [H1 H2]. unfold trim.
  rewrite (trimStart_fixed s H1), (trimStart_fixed (rev s) H2).
  apply rev_involutive.
Qed.

Lemma visible_app a b : visible (a ++ b) = visible a ++ visible b.
Proof. apply filter_app. Qed.

Lemma visible_spaces w :
  Forall (fun c => is_space c = true) w -> visible w = [].
Proof.
  induction 1 as [|c w Hc _ IH]; [reflexivity|].
  unfold visible in *. simpl. now rewrite Hc.
Qed.

Lemma visible_trim s : visible (trim s) = visible s.
Proof.
  destruct (trim_split s) as (p & q & Hs & Hp & Hq).
  rewrite Hs at 2.
  now rewrite !visible_app, (visible_spaces p Hp), (visible_spaces q Hq),
    app_nil_r.
Qed.

(** ** The blank-line replacement *)

Lemma match_spaces_newline_inv s after :
  match_spaces_newline s = Some after ->
  exists w, s = w ++ LF :: after
            /\ Forall (fun c => is_space c = true) w
            /\ match_spaces_newline after = None.
Proof.
  revert after. induction s as [|c rest IH]; intros after; simpl;
    [discriminate|].
  destruct (is_space c) eqn:Hc.
  - destruct (match_spaces_newline rest) as [a|] eqn:E.
    + intros H. inversion H; subst a.
      destruct (IH after eq_refl) as (w & Hw & Hsp & Hnone).
      exists (c :: w). split; [now rewrite Hw|]. split; [now constructor|].
      exact Hnone.
    + destruct (jschar_eqb c LF) eqn:Ec; [|discriminate].
      intros H. inversion H; subst after.
      apply N.eqb_eq in Ec. subst c. exists []. now repeat split.
  - destruct (jschar_eqb c LF) eqn:Ec; [|discriminate].
    apply N.eqb_eq in Ec. subst c. discriminate.
Qed.

Lemma match_spaces_newline_some w b :
  Forall (fun c => is_space c = true) w ->
  exists after, match_spaces_newline (w ++ LF :: b) = Some after.
Proof.
  induction 1 as [|c w Hc _ (after & IH)]; simpl.
  - destruct (match_spaces_newline b); eexists; reflexivity.
  - rewrite Hc, IH. eexists; reflexivity.
Qed.

Lemma match_blank_lines_inv s after :
  match_blank_lines s = Some after ->
  exists w, s = LF :: w ++ LF :: after
            /\ Forall (fun c => is_space c = true) w
            /\ match_spaces_newline after = None.
Proof.
  destruct s as [|c rest]; simpl; [discriminate|].
  destruct (jschar_eqb c LF) eqn:Ec; [|discriminate].
  apply N.eqb_eq in Ec. subst c. intros H.
  destruct (match_spaces_newline_inv rest after H) as (w & Hw & Hsp & Hn).
  exists w. now rewrite Hw.
Qed.

Lemma replace_blank_lines_nil : replace_blank_lines [] = [].
Proof. reflexivity. Qed.

(** A text whose leading white space holds no line feed keeps this under
    the replacement. *)
Lemma match_spaces_newline_replace t :
  match_spaces_newline t = None ->
  match_spaces_newline (replace_blank_lines t) = None.
Proof.
  induction t as [|c rest IH]; [reflexivity|]. intros H.
  assert (Hc : jschar_eqb c LF = false).
  { simpl in H. destruct (is_space c);
      [destruct (match_spaces_newline rest); [discriminate|]|];
      now destruct (jschar_eqb c LF). }
  assert (Hrest : is_space c = true -> match_spaces_newline rest = None).
  { intros Hsp. simpl in H. rewrite Hsp in H.
    now destruct (match_spaces_newline rest). }
  rewrite replace_blank_lines_copy by (simpl; now rewrite Hc).
  simpl. rewrite Hc.
  destruct (is_space c); [|reflexivity].
  now rewrite (IH (Hrest eq_refl)).
Qed.

Lemma replace_blank_lines_settled s : settled (replace_blank_lines s).
Proof.
  remember (length s) as n eqn:Hn.
  revert s Hn. induction n as [n IH] using lt_wf_ind. intros s Hn.
  destruct (match_blank_lines s) as [after|] eqn:E.
  - rewrite (replace_blank_lines_match s after E).
    pose proof (match_blank_lines_shorter s after E) as Hlt.
    destruct (match_blank_lines_inv s after E) as (w & _ & _ & Hnone).
    apply match_spaces_newline_replace in Hnone.
    assert (Hrec : settled (replace_blank_lines after)).
    { apply (IH (length after)); [lia | reflexivity]. }
    cbn [settled]. split; [|split; [|exact Hrec]].
    + intros r Hr. simpl in Hr. rewrite Hnone in Hr.
      now inversion Hr.
    + intros r Hr. simpl in Hr. rewrite Hnone in Hr. discriminate.
  - destruct s as [|c rest]; [exact I|].
    rewrite (replace_blank_lines_copy c rest E).
    cbn [settled]. split.
    + intros r Hr. exfalso. simpl in E, Hr.
      destruct (jschar_eqb c LF); [|discriminate].
      apply match_spaces_newline_replace in E. congruence.
    + apply (IH (length rest)); [subst n; simpl; lia | reflexivity].
Qed.

Lemma settled_suffix a t : settled (a ++ t) -> settled t.
Proof.
  induction a as [|c a IH]; [trivial|]. simpl. intros [_ H]. now apply IH.
Qed.

Lemma settled_no_blank_line_runs s : settled s -> no_blank_line_runs s.
Proof.
  intros Hs a w b -> Hw. apply settled_suffix in Hs.
  destruct Hs as [Hhead _].
  destruct (match_spaces_newline_some w b Hw) as (after & Hafter).
  specialize (Hhead after).
  assert (Hm : match_blank_lines (LF :: w ++ LF :: b) = Some after).
  { simpl. exact Hafter. }
  specialize (Hhead Hm). injection Hhead as Hhead.
  destruct w as [|c w]; [reflexivity|]. exfalso.
  simpl in Hhead. injection Hhead as -> Hrest. subst after.
  inversion Hw as [|? ? _ Hw']; subst.
  destruct (match_spaces_newline_some w b Hw') as (inner & Hinner).
  simpl in Hafter. rewrite Hinner in Hafter.
  injection Hafter as ->.
  apply match_spaces_newline_shorter in Hinner. lia.
Qed.

Lemma no_blank_line_runs_tail c s :
  no_blank_line_runs (c :: s) -> no_blank_line_runs s.
Proof.
  intros H a w b Hs Hw. apply (H (c :: a) w b); [|exact Hw].
  now rewrite Hs.
Qed.

Lemma no_blank_line_runs_fixed s :
  no_blank_line_runs s -> replace_blank_lines s = s.
Proof.
  remember (length s) as n eqn:Hn.
  revert s Hn. induction n as [n IH] using lt_wf_ind. intros s Hn Hs.
  destruct (match_blank_lines s) as [after|] eqn:E.
  - rewrite (replace_blank_lines_match s after E).
    pose proof (match_blank_lines_shorter s after E) as Hlt.
    destruct (match_blank_lines_inv s after E) as (w & Hw & Hsp & _).
    assert (w = []) as -> by (apply (Hs [] w after); assumption).
    simpl in Hw. subst s. do 2 f_equal.
    apply (IH (length after)); [simpl in *; lia | reflexivity|].
    now apply no_blank_line_runs_tail, no_blank_line_runs_tail in Hs.
  - destruct s as [|c rest]; [reflexivity|].
    rewrite (replace_blank_lines_copy c rest E). f_equal.
    apply (IH (length rest)); [subst n; simpl; lia | reflexivity|].
    now apply no_blank_line_runs_tail in Hs.
Qed.

Lemma no_blank_line_runs_trim s :
  no_blank_line_runs s -> no_blank_line_runs (trim s).
Proof.
  intros H a w b Ht Hw.
  destruct (trim_split s) as (p & q & Hs & _ & _).
  apply (H (p ++ a) w (b ++ q)); [|exact Hw].
  rewrite Hs, Ht at 1. rewrite <- !app_assoc. simpl.
  now rewrite <- !app_assoc.
Qed.

Lemma visible_replace_blank_lines s :
  visible (replace_blank_lines s) = visible s.
Proof.
  remember (length s) as n eqn:Hn.
  revert s Hn. induction n as [n IH] using lt_wf_ind. intros s Hn.
  destruct (match_blank_lines s) as [after|] eqn:E.
  - rewrite (replace_blank_lines_match s after E).
    pose proof (match_blank_lines_shorter s after E) as Hlt.
    destruct (match_blank_lines_inv s after E) as (w & Hw & Hsp & _).
    rewrite Hw.
    change (LF :: w ++ LF :: after) with ([LF] ++ w ++ [LF] ++ after).
    change (LF :: LF :: replace_blank_lines after)
      with ([LF; LF] ++ replace_blank_lines after).
    rewrite !visible_app, (visible_spaces w Hsp).
    rewrite (IH (length after)); [reflexivity | lia | reflexivity].
  - destruct s as [|c rest]; [reflexivity|].
    rewrite (replace_blank_lines_copy c rest E).
    unfold visible. simpl. fold (visible (replace_blank_lines rest)).
    fold (visible rest).
    rewrite (IH (length rest)); [reflexivity | subst n; simpl; lia
                                | reflexivity].
Qed.

(** ** The converted text *)

Lemma no_blank_line_runs_nil : no_blank_line_runs [].
Proof. intros a w b H. now destruct a. Qed.

(** X17. The converted text never begins or ends with white space, and
    never holds two line feeds with only white space between them other
    than side by side: no run of blank lines, no line of white space
    alone.  Cleaning it once more changes nothing. *)
Theorem htmlToMarkdown_output_clean (parseFromString : jsstring -> Node)
    (html : jsstring) :
  trimmed (htmlToMarkdown parseFromString html)
  /\ no_blank_line_runs (htmlToMarkdown parseFromString html)
  /\ trim (replace_blank_lines (htmlToMarkdown parseFromString html))
     = htmlToMarkdown parseFromString html.
Proof.
  assert (H : trimmed (htmlToMarkdown parseFromString html)
              /\ no_blank_line_runs (htmlToMarkdown parseFromString html)).
  { destruct html as [|c html].
    - split; [now split | apply no_blank_line_runs_nil].
    - rewrite htmlToMarkdown_nonempty by discriminate. split.
      + apply trim_trimmed.
      + apply no_blank_line_runs_trim, settled_no_blank_line_runs,
          replace_blank_lines_settled. }
  destruct H as [Ht Hn]. split; [exact Ht|]. split; [exact Hn|].
  rewrite (no_blank_line_runs_fixed _ Hn). now apply trim_fixed.
Qed.

(** X18. The cleaning of the walked text adds and removes white space
    only: the characters of the converted text other than white space are
    those of the walked text, in their order. *)
Theorem htmlToMarkdown_cleaning_keeps_text
    (parseFromString : jsstring -> Node) (html : jsstring)
    (Hhtml : html <> []) :
  visible (htmlToMarkdown parseFromString html)
  = visible (walk (remove_script_style
                     (parseFromString (js "<body>" ++ html ++ js "</body>")))).
Proof.
  rewrite htmlToMarkdown_nonempty by exact Hhtml.
  now rewrite visible_trim, visible_replace_blank_lines.
Qed.

Lemma htmlToMarkdown_cleaning_keeps_text_witness :
  visible (htmlToMarkdown FragmentParser.parseFromString
             (js "<p>A</p> <p>B</p>"))
  = visible (walk (remove_script_style
                     (FragmentParser.parseFromString
                        (js "<body>" ++ js "<p>A</p> <p>B</p>"
                           ++ js "</body>")))).
Proof.
  apply (htmlToMarkdown_cleaning_keeps_text FragmentParser.parseFromString
           (js "<p>A</p> <p>B</p>")).
  discriminate.
Defined.

(** ** The walk *)

Lemma walk_element_other tag children :
  has_walk_case tag = false -> walk_element tag children = children.
Proof.
  unfold has_walk_case, walk_element. intros H.
  repeat (apply orb_false_iff in H; destruct H as [H ?]).
  repeat match goal with
         | E : tag_is tag _ = false |- _ => rewrite E; clear E
         end.
  reflexivity.
Qed.

(** X19. A tree whose elements all have tags other than the nine the
    walk has a case for is rendered as the text of its text nodes, in
    document order: such markup is dropped and nothing is put in its
    place. *)
Theorem walk_other_tags_gives_text (n : Node)
    (Hother : only_other_tags n = true) :
  walk n = text_below n.
Proof.
  induction n as [textContent | | ns name children IH] using Node_induction;
    try reflexivity.
  cbn [only_other_tags] in Hother.
  apply andb_true_iff in Hother as [Htag Hchildren].
  apply negb_true_iff in Htag.
  cbn [walk text_below]. rewrite walk_element_other by exact Htag.
  f_equal. clear Htag.
  induction children as [|c children IHc]; [reflexivity|].
  cbn [forallb] in Hchildren.
  apply andb_true_iff in Hchildren as [Hc Hrest].
  inversion IH as [|? ? Hhead Htail]; subst.
  cbn [map]. f_equal; [now apply Hhead | now apply IHc].
Qed.

Lemma walk_other_tags_gives_text_witness :
  walk (Element HTMLElement (js "div")
          [Element HTMLElement (js "span") [Text (js "a")];
           OtherNode; Text (js "b")])
  = js "ab".
Proof.
  apply (walk_other_tags_gives_text
           (Element HTMLElement (js "div")
              [Element HTMLElement (js "span") [Text (js "a")];
               OtherNode; Text (js "b")])).
  reflexivity.
Defined.

Lemma subsequence_nil_l s : subsequence [] s.
Proof. induction s; constructor; assumption. Qed.

Lemma subsequence_refl s : subsequence s s.
Proof. induction s; constructor; assumption. Qed.

Lemma subsequence_app sub1 s1 sub2 s2 :
  subsequence sub1 s1 -> subsequence sub2 s2 ->
  subsequence (sub1 ++ sub2) (s1 ++ s2).
Proof.
  intros H1 H2. induction H1; simpl; [exact H2 | |]; now constructor.
Qed.

Lemma subsequence_between sub p s q :
  subsequence sub s -> subsequence sub (p ++ s ++ q).
Proof.
  intros H.
  change sub with ([] ++ sub). apply subsequence_app.
  - apply subsequence_nil_l.
  - rewrite <- (app_nil_r sub). apply subsequence_app; [exact H|].
    apply subsequence_nil_l.
Qed.

Lemma visible_walk_element tag children sub :
  (tag_is tag "BR" = true -> sub = []) ->
  subsequence sub (visible children) ->
  subsequence sub (visible (walk_element tag children)).
Proof.
  intros Hbr H. unfold walk_element.
  repeat match goal with
         | |- context [if ?b then _ else _] => destruct b eqn:?
         end;
    rewrite ?visible_app, ?visible_trim;
    first [ apply subsequence_between; exact H
          | apply (subsequence_between sub [] (visible children)); exact H
          | exact H
          | rewrite Hbr by reflexivity; apply subsequence_nil_l ].
Qed.

Lemma visible_concat_subsequence (f g : Node -> jsstring) children :
  Forall (fun c => subsequence (visible (f c)) (visible (g c))) children ->
  subsequence (visible (concat (map f children)))
    (visible (concat (map g children))).
Proof.
  induction 1 as [|c children Hc _ IH]; simpl; [constructor|].
  rewrite !visible_app. now apply subsequence_app.
Qed.

(** X20. The walk loses no text: in a tree whose line-break elements
    have no child nodes, the characters other than white space of the text
    nodes are all in the rendering, in their order, with the markers the
    walk adds among them. *)
Theorem walk_keeps_text (n : Node) (Hbr : br_is_void n = true) :
  subsequence (visible (text_below n)) (visible (walk n)).
Proof.
  induction n as [textContent | | ns name children IH] using Node_induction.
  - apply subsequence_refl.
  - constructor.
  - cbn [br_is_void] in Hbr. apply andb_true_iff in Hbr as [Hvoid Hch].
    cbn [walk text_below]. apply visible_walk_element.
    + intros Htag. rewrite Htag in Hvoid. cbn [negb orb] in Hvoid.
      destruct children; [reflexivity | discriminate].
    + apply visible_concat_subsequence. clear Hvoid.
      induction children as [|c children IHc]; [constructor|].
      cbn [forallb] in Hch. apply andb_true_iff in Hch as [Hc Hrest].
      inversion IH as [|? ? Hhead Htail]; subst.
      constructor; [now apply Hhead | now apply IHc].
Qed.

Lemma walk_keeps_text_witness :
  subsequence (js "Hione")
    (visible (walk (Element HTMLElement (js "div")
                      [Element HTMLElement (js "b") [Text (js "Hi")];
                       Element HTMLElement (js "br") [];
                       Element HTMLElement (js "li") [Text (js " one ")]]))).
Proof.
  apply (walk_keeps_text
           (Element HTMLElement (js "div")
              [Element HTMLElement (js "b") [Text (js "Hi")];
               Element HTMLElement (js "br") [];
               Element HTMLElement (js "li") [Text (js " one ")]])).
  reflexivity.
Defined.

(* ===================================================================== *)
(** * Properties of the paragraph field *)
(* ===================================================================== *)

(** ** Substrings, [split] and [join] *)

Lemma substring_in_range s a b :
  0 <= a <= b -> b <= Z.of_nat (length s) ->
  substring s a b = firstn (Z.to_nat (b - a)) (skipn (Z.to_nat a) s).
Proof.
  intros Hab Hb. unfold substring, clamp_index.
  replace (Z.min (Z.max a 0) (Z.of_nat (length s))) with a by lia.
  replace (Z.min (Z.max b 0) (Z.of_nat (length s))) with b by lia.
  replace (Z.max a b) with b by lia. replace (Z.min a b) with a by lia.
  reflexivity.
Qed.

(** The text before the selection, the selection and the text after it
    make up the text. *)
Lemma selection_parts t :
  selection_in_text t ->
  value t = substring (value t) 0 (selectionStart t)
            ++ substring (value t) (selectionStart t) (selectionEnd t)
            ++ substring_from (value t) (selectionEnd t)
  /\ Z.of_nat (length (substring (value t) 0 (selectionStart t)))
     = selectionStart t
  /\ Z.of_nat (length (substring (value t) (selectionStart t)
                         (selectionEnd t)))
     = selectionEnd t - selectionStart t.
Proof.
  intros [[H0 Hse] Hend]. unfold substring_from.
  rewrite !substring_in_range by lia.
  set (s := value t) in *. set (a := selectionStart t) in *.
  set (b := selectionEnd t) in *.
  replace (Z.to_nat (a - 0)) with (Z.to_nat a) by lia.
  change (Z.to_nat 0) with 0%nat. cbn [skipn].
  split; [|split].
  - rewrite (firstn_all2 (n := Z.to_nat (Z.of_nat (length s) - b)))
      by (rewrite length_skipn; lia).
    rewrite <- (firstn_skipn (Z.to_nat a) s) at 1. f_equal.
    rewrite <- (firstn_skipn (Z.to_nat (b - a)) (skipn (Z.to_nat a) s)) at 1.
    f_equal. rewrite skipn_skipn. f_equal. lia.
  - rewrite length_firstn. lia.
  - rewrite length_firstn, length_skipn. lia.
Qed.

Lemma split_nonempty sep s : split sep s <> [].
Proof.
  destruct s as [|c s]; simpl; [discriminate|].
  destruct (jschar_eqb c sep); [discriminate|].
  destruct (split sep s); discriminate.
Qed.

Lemma join_split sep s : join [sep] (split sep s) = s.
Proof.
  induction s as [|c s IH]; [reflexivity|]. simpl.
  destruct (jschar_eqb c sep) eqn:E.
  - apply N.eqb_eq in E. subst c.
    pose proof (split_nonempty sep s) as Hne.
    cbn [join]. destruct (split sep s) as [|p ps]; [contradiction|].
    simpl. now rewrite <- IH.
  - pose proof (split_nonempty sep s) as Hne.
    destruct (split sep s) as [|p ps]; [contradiction|].
    rewrite <- IH. cbn [join]. now destruct ps.
Qed.

Lemma split_join sep pieces :
  pieces <> [] -> Forall (fun p => ~ In sep p) pieces ->
  split sep (join [sep] pieces) = pieces.
Proof.
  intros Hne Hall. induction Hall as [|p ps Hp _ IH]; [contradiction|].
  cbn [join]. destruct ps as [|q ps].
  - now apply split_without_separator.
  - change (p ++ [sep] ++ join [sep] (q :: ps))
      with (p ++ sep :: join [sep] (q :: ps)).
    rewrite split_at_separator by exact Hp.
    f_equal. apply IH. discriminate.
Qed.

Lemma split_pieces_without_separator sep s :
  Forall (fun p => ~ In sep p) (split sep s).
Proof.
  induction s as [|c s IH]; simpl.
  - constructor; [intros [] | constructor].
  - destruct (jschar_eqb c sep) eqn:E.
    + constructor; [intros [] | exact IH].
    + pose proof (split_nonempty sep s) as Hne.
      destruct (split sep s) as [|p ps]; [contradiction|].
      inversion IH as [|? ? Hp Hps]; subst.
      constructor; [|exact Hps].
      intros [->|Hin]; [|now apply Hp].
      unfold jschar_eqb in E. now rewrite N.eqb_refl in E.
Qed.

Lemma split_pieces_Forall (P : jschar -> Prop) sep s :
  Forall P s -> Forall (Forall P) (split sep s).
Proof.
  induction 1 as [|c s Hc _ IH]; simpl.
  - repeat constructor.
  - destruct (jschar_eqb c sep).
    + constructor; [constructor | exact IH].
    + pose proof (split_nonempty sep s) as Hne.
      destruct (split sep s) as [|p ps]; [contradiction|].
      inversion IH; subst. constructor; [now constructor | assumption].
Qed.

Lemma visible_nil_spaces s :
  visible s = [] -> Forall (fun c => is_space c = true) s.
Proof.
  induction s as [|c s IH]; [constructor|]. unfold visible. simpl.
  destruct (is_space c) eqn:E; simpl; [|discriminate].
  intros H. constructor; [exact E | now apply IH].
Qed.

Lemma trim_spaces s :
  Forall (fun c => is_space c = true) s -> trim s = [].
Proof.
  intros H. pose proof (trim_trimmed s) as [Hstart _].
  pose proof (visible_trim s) as Hv.
  rewrite (visible_spaces s H) in Hv.
  destruct (trim s) as [|c r]; [reflexivity|].
  simpl in Hstart. unfold visible in Hv. simpl in Hv.
  rewrite Hstart in Hv. discriminate.
Qed.

Lemma list_item_line_without_newline line :
  ~ In LF line -> ~ In LF (list_item_line line).
Proof.
  unfold list_item_line. destruct (trim line); [trivial|].
  intros H [E|[E|Hin]]; [discriminate | discriminate | now apply H].
Qed.

(** ** The formatting buttons *)

(** X21. With the selection a text area reports, the bold and the italic
    button put their markers right around the selected text and leave the
    text before and after it as it is; on an empty selection they insert
    the bare markers.  Without a text area behind the ref the content
    stays as it is. *)
Theorem applyFormatting_wraps_selection (t : Textarea) (content : jsstring)
    (Hselection : selection_in_text t) :
  exists before selected after,
    value t = before ++ selected ++ after
    /\ Z.of_nat (length before) = selectionStart t
    /\ Z.of_nat (length selected) = selectionEnd t - selectionStart t
    /\ applyFormatting bold (Some t) content
       = before ++ js "**" ++ selected ++ js "**" ++ after
    /\ applyFormatting italic (Some t) content
       = before ++ js "*" ++ selected ++ js "*" ++ after
    /\ (selectionStart t = selectionEnd t ->
        applyFormatting bold (Some t) content = before ++ js "****" ++ after)
    /\ forall style, applyFormatting style None content = content.
Proof.
  destruct (selection_parts t Hselection) as (Hparts & Hlen1 & Hlen2).
  exists (substring (value t) 0 (selectionStart t)),
         (substring (value t) (selectionStart t) (selectionEnd t)),
         (substring_from (value t) (selectionEnd t)).
  split; [exact Hparts|]. split; [exact Hlen1|]. split; [exact Hlen2|].
  split; [|split; [|split]].
  - cbn [applyFormatting formatted_text]. now rewrite <- !app_assoc.
  - cbn [applyFormatting formatted_text]. now rewrite <- !app_assoc.
  - intros Heq. cbn [applyFormatting formatted_text].
    destruct (substring (value t) (selectionStart t) (selectionEnd t));
      [reflexivity | simpl in Hlen2; lia].
  - reflexivity.
Qed.

Lemma applyFormatting_wraps_selection_witness :
  exists before selected after,
    js "say hello now" = before ++ selected ++ after
    /\ applyFormatting bold
         (Some {| value := js "say hello now"; selectionStart := 4;
                  selectionEnd := 9 |}) (js "say hello now")
       = before ++ js "**" ++ selected ++ js "**" ++ after.
Proof.
  destruct (applyFormatting_wraps_selection
              {| value := js "say hello now"; selectionStart := 4;
                 selectionEnd := 9 |} (js "say hello now"))
    as (before & selected & after & Hparts & _ & _ & Hbold & _).
  - unfold selection_in_text. simpl. lia.
  - exists before, selected, after. split; [exact Hparts | exact Hbold].
Defined.

Lemma trim_empty_iff_no_visible line : trim line = [] <-> visible line = [].
Proof.
  split; intros H.
  - now rewrite <- visible_trim, H.
  - now apply trim_spaces, visible_nil_spaces.
Qed.

Lemma list_item_line_by_visible line :
  list_item_line line
  = match visible line with
    | [] => line
    | _ :: _ => js "- " ++ line
    end.
Proof.
  unfold list_item_line.
  destruct (trim line) as [|c r] eqn:Et.
  - now rewrite (proj1 (trim_empty_iff_no_visible line) Et).
  - destruct (visible line) as [|v vs] eqn:Ev; [|reflexivity].
    rewrite (proj2 (trim_empty_iff_no_visible line) Ev) in Et. discriminate.
Qed.

(** A text cut in two at a length is cut at that position. *)
Lemma app_parts {A : Type} (l a b : list A) :
  l = a ++ b -> a = firstn (length a) l /\ skipn (length a) l = b.
Proof.
  intros ->. split.
  - now rewrite firstn_app, Nat.sub_diag, firstn_all, app_nil_r.
  - now rewrite skipn_app, Nat.sub_diag, skipn_all.
Qed.

(** X22. With the selection a text area reports, the list button
    replaces the selected text, from the start of the selection to its
    end, and keeps the text before and after it.  The new text has the
    lines of the selected text, as many as there were and in their order:
    a line with a character other than white space gets a hyphen and a
    space in front, every other line stays as it is.  A selection without
    such a character, the empty one included, leaves the text as it
    is. *)
Theorem applyFormatting_list_keeps_lines (t : Textarea) (content : jsstring)
    (Hselection : selection_in_text t) :
  exists before selected after newText,
    value t = before ++ selected ++ after
    /\ Z.of_nat (length before) = selectionStart t
    /\ Z.of_nat (length selected) = selectionEnd t - selectionStart t
    /\ applyFormatting list_items (Some t) content
       = before ++ newText ++ after
    /\ split LF newText
       = map (fun line =>
                match visible line with
                | [] => line
                | _ :: _ => js "- " ++ line
                end)
           (split LF selected)
    /\ (visible selected = [] ->
        applyFormatting list_items (Some t) content = value t).
Proof.
  destruct (selection_parts t Hselection) as (Hparts & Hlen1 & Hlen2).
  set (selected := substring (value t) (selectionStart t) (selectionEnd t))
    in *.
  assert (Hlines : split LF (formatted_text list_items selected)
                   = map list_item_line (split LF selected)).
  { cbn [formatted_text]. apply split_join.
    - pose proof (split_nonempty LF selected).
      destruct (split LF selected); [contradiction | discriminate].
    - pose proof (split_pieces_without_separator LF selected) as H.
      induction H as [|p ps Hp _ IH]; [constructor|].
      cbn [map]. constructor; [|exact IH].
      now apply list_item_line_without_newline. }
  exists (substring (value t) 0 (selectionStart t)), selected,
         (substring_from (value t) (selectionEnd t)),
         (formatted_text list_items selected).
  split; [exact Hparts|]. split; [exact Hlen1|]. split; [exact Hlen2|].
  split; [reflexivity|]. split.
  - rewrite Hlines. apply map_ext. exact list_item_line_by_visible.
  - clear Hlines. intros Hblank. cbn [applyFormatting]. fold selected.
    etransitivity; [|symmetry; exact Hparts]. do 2 f_equal.
    cbn [formatted_text].
    rewrite <- (join_split LF selected) at 2. f_equal.
    pose proof (split_pieces_Forall _ LF selected
                  (visible_nil_spaces selected Hblank)) as H.
    induction H as [|p ps Hp _ IH]; [reflexivity|].
    cbn [map]. f_equal; [|exact IH].
    unfold list_item_line. now rewrite (trim_spaces p Hp).
Qed.

Lemma applyFormatting_list_keeps_lines_witness :
  applyFormatting list_items
    (Some {| value := js "x" ++ [LF] ++ js "a" ++ [LF] ++ js " "
                        ++ [LF] ++ js "b";
             selectionStart := 2; selectionEnd := 7 |}) []
  = js "x" ++ [LF] ++ js "- a" ++ [LF] ++ js " " ++ [LF] ++ js "- b".
Proof.
  destruct (applyFormatting_list_keeps_lines
              {| value := js "x" ++ [LF] ++ js "a" ++ [LF] ++ js " "
                            ++ [LF] ++ js "b";
                 selectionStart := 2; selectionEnd := 7 |} [])
    as (before & selected & after & newText
        & Hparts & Hb & Hs & Hset & Hlines & _).
  - unfold selection_in_text. simpl. lia.
  - cbn [value selectionStart selectionEnd] in Hparts, Hb, Hs.
    assert (Lbefore : length before = 2%nat) by lia.
    assert (Lselected : length selected = 5%nat) by lia.
    destruct (app_parts _ _ _ Hparts) as [Ebefore Erest].
    destruct (app_parts _ _ _ Erest) as [Eselected Eafter].
    rewrite Lbefore in Ebefore, Eselected, Eafter.
    rewrite Lselected in Eselected, Eafter.
    rewrite Hset, <- (join_split LF newText), Hlines.
    rewrite <- Eafter, Eselected, Ebefore. reflexivity.
Defined.

(** ** Pasting *)

Lemma jsstring_eqb_eq a b : jsstring_eqb a b = true <-> a = b.
Proof.
  revert b. induction a as [|x a IH]; intros [|y b]; simpl;
    try (split; [discriminate | discriminate]); [tauto|].
  unfold jschar_eqb. rewrite andb_true_iff, N.eqb_eq, IH.
  split; [intros [-> ->]; reflexivity | intros H; now inversion H].
Qed.

Lemma htmlToMarkdown_trimmed parseFromString html :
  trimmed (htmlToMarkdown parseFromString html).
Proof.
  destruct html as [|c html]; [now split|].
  rewrite htmlToMarkdown_nonempty by discriminate. apply trim_trimmed.
Qed.

(** X23. A paste is left to the browser exactly when the clipboard does
    not offer HTML.  When it does, nothing is pasted at all exactly when
    the converted text is empty, as it is for empty HTML.  Otherwise, with
    the selection a text area reports, the content is set to the text
    before the start of the selection, the converted text, and the text
    after the end of the selection, and the cursor to the start of the
    selection plus the length of the converted text, which is right after
    the converted text and inside the new content. *)
Theorem handlePaste_replaces_selection (parseFromString : jsstring -> Node)
    (clipboardData : Clipboard) (t : Textarea)
    (Hselection : selection_in_text t) :
  (handlePaste parseFromString clipboardData t = LeftToBrowser
   <-> ~ In (js "text/html") (types clipboardData))
  /\ (In (js "text/html") (types clipboardData) ->
      (handlePaste parseFromString clipboardData t = NothingPasted
       <-> htmlToMarkdown parseFromString (html_data clipboardData) = []))
  /\ (In (js "text/html") (types clipboardData) ->
      html_data clipboardData = [] ->
      handlePaste parseFromString clipboardData t = NothingPasted)
  /\ (In (js "text/html") (types clipboardData) ->
      htmlToMarkdown parseFromString (html_data clipboardData) <> [] ->
      exists before selected after,
        value t = before ++ selected ++ after
        /\ Z.of_nat (length before) = selectionStart t
        /\ Z.of_nat (length selected) = selectionEnd t - selectionStart t
        /\ handlePaste parseFromString clipboardData t
           = ContentSet
               (before
                  ++ htmlToMarkdown parseFromString (html_data clipboardData)
                  ++ after)
               (selectionStart t
                + Z.of_nat
                    (length (htmlToMarkdown parseFromString
                               (html_data clipboardData))))
        /\ selectionStart t
             + Z.of_nat (length (htmlToMarkdown parseFromString
                                   (html_data clipboardData)))
           = Z.of_nat
               (length (before ++ htmlToMarkdown parseFromString
                                    (html_data clipboardData)))
        /\ selectionStart t
             + Z.of_nat (length (htmlToMarkdown parseFromString
                                   (html_data clipboardData)))
           <= Z.of_nat
                (length (before
                           ++ htmlToMarkdown parseFromString
                                (html_data clipboardData)
                           ++ after)))
  /\ (forall newContent newCursorPos,
        handlePaste parseFromString clipboardData t
          = ContentSet newContent newCursorPos ->
        In (js "text/html") (types clipboardData)
        /\ htmlToMarkdown parseFromString (html_data clipboardData) <> []).
Proof.
  assert (Hoffer : existsb (jsstring_eqb (js "text/html")) (types clipboardData)
                   = true <-> In (js "text/html") (types clipboardData)).
  { rewrite existsb_exists. split.
    - intros (x & Hx & E). apply jsstring_eqb_eq in E. now subst x.
    - intros H. exists (js "text/html"). split; [exact H|].
      now apply jsstring_eqb_eq. }
  destruct (selection_parts t Hselection) as (Hparts & Hlen1 & Hlen2).
  unfold handlePaste.
  destruct (existsb (jsstring_eqb (js "text/html")) (types clipboardData))
    eqn:E; cbn [negb].
  - assert (Hin : In (js "text/html") (types clipboardData))
      by now apply Hoffer.
    split; [|split; [|split; [|split]]].
    + split.
      * destruct (htmlToMarkdown parseFromString (html_data clipboardData));
          discriminate.
      * intros H. contradiction.
    + intros _.
      destruct (htmlToMarkdown parseFromString (html_data clipboardData));
        split; try reflexivity; discriminate.
    + intros _ ->. reflexivity.
    + intros _ Hmd.
      exists (substring (value t) 0 (selectionStart t)),
             (substring (value t) (selectionStart t) (selectionEnd t)),
             (substring_from (value t) (selectionEnd t)).
      split; [exact Hparts|]. split; [exact Hlen1|]. split; [exact Hlen2|].
      destruct (htmlToMarkdown parseFromString (html_data clipboardData))
        as [|c md]; [contradiction|].
      split; [reflexivity|].
      rewrite !length_app. split; lia.
    + intros newContent newCursorPos H. split; [exact Hin|].
      destruct (htmlToMarkdown parseFromString (html_data clipboardData));
        discriminate.
  - split; [|split; [|split; [|split]]].
    + split; [|reflexivity]. intros _ H. apply Hoffer in H. discriminate.
    + intros H. apply Hoffer in H. discriminate.
    + intros H. apply Hoffer in H. discriminate.
    + intros H. apply Hoffer in H. discriminate.
    + discriminate.
Qed.

Lemma handlePaste_replaces_selection_witness :
  handlePaste FragmentParser.parseFromString
    {| types := [js "text/plain"; js "text/html"];
       html_data := js "<b>Hi</b>" |}
    {| value := js "abcd"; selectionStart := 1; selectionEnd := 3 |}
  = ContentSet (js "a**Hi**d") 7.
Proof.
  destruct (handlePaste_replaces_selection FragmentParser.parseFromString
              {| types := [js "text/plain"; js "text/html"];
                 html_data := js "<b>Hi</b>" |}
              {| value := js "abcd"; selectionStart := 1; selectionEnd := 3 |})
    as (_ & _ & _ & Hset & _).
  - unfold selection_in_text. simpl. lia.
  - destruct Hset as (before & selected & after & Hparts & Hb & Hs & E & _).
    + right. now left.
    + discriminate.
    + cbn [value selectionStart selectionEnd] in Hparts, Hb, Hs.
      assert (Lbefore : length before = 1%nat) by lia.
      assert (Lselected : length selected = 2%nat) by lia.
      destruct (app_parts _ _ _ Hparts) as [Ebefore Erest].
      destruct (app_parts _ _ _ Erest) as [_ Eafter].
      rewrite Lbefore in Ebefore, Eafter.
      rewrite Lselected in Eafter.
      rewrite E, <- Eafter, Ebefore. reflexivity.
Defined.

(* ===================================================================== *)
(** * Properties of the highlighter's escaping *)
(* ===================================================================== *)

Lemma replace_char_app c r a b :
  replace_char c r (a ++ b) = replace_char c r a ++ replace_char c r b.
Proof. unfold replace_char. apply flat_map_app. Qed.

Lemma escape_markup_cons c json :
  escape_markup (c :: json) = escape_char c ++ escape_markup json.
Proof.
  unfold escape_markup, escape_char.
  change (replace_char AMPERSAND (js "&amp;") (c :: json))
    with ((if jschar_eqb c AMPERSAND then js "&amp;" else [c])
            ++ replace_char AMPERSAND (js "&amp;") json).
  rewrite !replace_char_app. f_equal.
  destruct (jschar_eqb c AMPERSAND) eqn:Ea; [reflexivity|].
  unfold replace_char at 2. cbn [flat_map]. rewrite app_nil_r.
  destruct (jschar_eqb c LESS_THAN) eqn:El; [reflexivity|].
  unfold replace_char. cbn [flat_map]. now rewrite app_nil_r.
Qed.

Lemma escape_markup_flat_map json :
  escape_markup json = flat_map escape_char json.
Proof.
  induction json as [|c json IH]; [reflexivity|].
  rewrite escape_markup_cons, IH. reflexivity.
Qed.

Lemma escape_char_cases c :
  (c = AMPERSAND /\ escape_char c = js "&amp;")
  \/ (c = LESS_THAN /\ escape_char c = js "&lt;")
  \/ (c = GREATER_THAN /\ escape_char c = js "&gt;")
  \/ (c <> AMPERSAND /\ c <> LESS_THAN /\ c <> GREATER_THAN
      /\ escape_char c = [c]).
Proof.
  unfold escape_char, jschar_eqb.
  destruct (N.eqb_spec c AMPERSAND) as [->|Ha]; [now left|].
  destruct (N.eqb_spec c LESS_THAN) as [->|Hl]; [right; now left|].
  destruct (N.eqb_spec c GREATER_THAN) as [->|Hg];
    [right; right; now left|].
  right; right; right. now repeat split.
Qed.

Lemma escape_markup_injective a b :
  escape_markup a = escape_markup b -> a = b.
Proof.
  rewrite !escape_markup_flat_map. revert b.
  induction a as [|x a IH]; intros [|y b] H.
  - reflexivity.
  - exfalso. cbn [flat_map] in H.
    destruct (escape_char_cases y) as [[_ E]|[[_ E]|[[_ E]|(_ & _ & _ & E)]]];
      rewrite E in H; discriminate.
  - exfalso. cbn [flat_map] in H.
    destruct (escape_char_cases x) as [[_ E]|[[_ E]|[[_ E]|(_ & _ & _ & E)]]];
      rewrite E in H; discriminate.
  - cbn [flat_map] in H.
    destruct (escape_char_cases x)
      as [[-> Ex]|[[-> Ex]|[[-> Ex]|(Hx1 & Hx2 & Hx3 & Ex)]]];
    destruct (escape_char_cases y)
      as [[-> Ey]|[[-> Ey]|[[-> Ey]|(Hy1 & Hy2 & Hy3 & Ey)]]];
    rewrite ?Ex, ?Ey in H; cbn in H;
    try discriminate;
    try (injection H as H; f_equal; now apply IH);
    try (injection H as E H; subst; contradiction);
    try (injection H as E H; f_equal; [exact E | now apply IH]).
Qed.

Lemma escape_markup_no_less_than json : ~ In LESS_THAN (escape_markup json).
Proof.
  rewrite escape_markup_flat_map.
  induction json as [|c json IH]; [intros []|].
  cbn [flat_map]. intros H. apply in_app_or in H as [H|H]; [|now apply IH].
  destruct (escape_char_cases c)
    as [[_ E]|[[_ E]|[[_ E]|(_ & Hl & _ & E)]]];
    rewrite E in H; simpl in H;
    repeat (destruct H as [H|H]; [try discriminate; try congruence|]);
    try contradiction.
Qed.

Lemma escape_markup_no_greater_than json :
  ~ In GREATER_THAN (escape_markup json).
Proof.
  rewrite escape_markup_flat_map.
  induction json as [|c json IH]; [intros []|].
  cbn [flat_map]. intros H. apply in_app_or in H as [H|H]; [|now apply IH].
  destruct (escape_char_cases c)
    as [[_ E]|[[_ E]|[[_ E]|(_ & _ & Hg & E)]]];
    rewrite E in H; simpl in H;
    repeat (destruct H as [H|H]; [try discriminate; try congruence|]);
    try contradiction.
Qed.

(** X24. The three replacements of the highlighter escape each character
    once: the text they give is the text with every ampersand, less-than
    and greater-than sign replaced by its entity and every other character
    as it is, so no ampersand of an entity is escaped again.  The escaped
    text holds no less-than and no greater-than sign, and two different
    texts never have the same escaped text. *)
Theorem escape_markup_once (json other : jsstring) :
  escape_markup json = flat_map escape_char json
  /\ ~ In LESS_THAN (escape_markup json)
  /\ ~ In GREATER_THAN (escape_markup json)
  /\ (escape_markup json = escape_markup other -> json = other).
Proof.
  split; [apply escape_markup_flat_map|].
  split; [apply escape_markup_no_less_than|].
  split; [apply escape_markup_no_greater_than|].
  apply escape_markup_injective.
Qed.

Lemma escape_markup_once_witness :
  escape_markup (js "a<b&c") = js "a&lt;b&amp;c"
  /\ js "a<b&c" = js "a<b&c".
Proof.
  destruct (escape_markup_once (js "a<b&c") (js "a<b&c"))
    as (Honce & _ & _ & Hinj).
  split; [rewrite Honce; reflexivity | apply Hinj; reflexivity].
Defined.

(* ===================================================================== *)
(** * Properties of what the list shows of a drag *)
(* ===================================================================== *)

Lemma advisory_consistent_step st e :
  advisory_consistent st -> advisory_consistent (drag_step st e).
Proof.
  intros (Hmirror & Hover & Hclass).
  destruct e as [index | index | |]; cbn [drag_step].
  - unfold advisory_consistent. cbn.
    split; [reflexivity|]. split; [discriminate|].
    split; [discriminate | reflexivity].
  - unfold handleDragEnter.
    destruct (dragItemRef st) as [source|] eqn:E.
    + unfold advisory_consistent. cbn. rewrite ?E.
      split; [exact Hmirror|]. split; [discriminate | exact Hclass].
    + unfold advisory_consistent. rewrite ?E.
      split; [exact Hmirror | split; [exact Hover | exact Hclass]].
  - now split.
  - unfold advisory_consistent. cbn.
    split; [reflexivity|]. split; [reflexivity|].
    split; [discriminate | congruence].
Qed.

Lemma advisory_consistent_steps es st :
  advisory_consistent st -> advisory_consistent (drag_steps es st).
Proof.
  unfold drag_steps. revert st.
  induction es as [|e es IH]; intros st H; [exact H|].
  cbn [fold_left]. now apply IH, advisory_consistent_step.
Qed.

Lemma same_index_eq a i j :
  same_index a i = true -> same_index a j = true -> i = j.
Proof.
  destruct a as [x|]; simpl; [|discriminate].
  intros Hi Hj. apply Z.eqb_eq in Hi, Hj. congruence.
Qed.

(** X25. After whatever drag events, from the start of the page on: the
    drop indicator is shown at one position at most, never at the dragged
    item, and only while a drag is going on; the position shown as dragged
    is the one the ref holds; the body carries the dragging class exactly
    while a drag is going on.  After the end of a drag nothing is shown
    as dragged or as drop target. *)
Theorem drag_display_consistent (es : list DragEvent) (i j : Z) :
  (shows_drop_indicator (drag_steps es initial_App) i = true ->
   shows_drop_indicator (drag_steps es initial_App) j = true -> i = j)
  /\ (shows_drop_indicator (drag_steps es initial_App) i = true ->
      shows_dragging_item (drag_steps es initial_App) i = false
      /\ dragItemRef (drag_steps es initial_App) <> None)
  /\ (shows_dragging_item (drag_steps es initial_App) i = true <->
      dragItemRef (drag_steps es initial_App) = Some i)
  /\ (dragging_active (drag_steps es initial_App) = true <->
      dragItemRef (drag_steps es initial_App) <> None)
  /\ shows_drop_indicator (drag_steps (es ++ [DragEnd]) initial_App) i = false
  /\ shows_dragging_item (drag_steps (es ++ [DragEnd]) initial_App) i = false.
Proof.
  assert (H0 : advisory_consistent initial_App).
  { unfold advisory_consistent. cbn. split; [reflexivity|].
    split; [reflexivity|]. split; [discriminate | congruence]. }
  pose proof (advisory_consistent_steps es initial_App H0)
    as (Hmirror & Hover & Hclass).
  set (st := drag_steps es initial_App) in *.
  unfold shows_drop_indicator, shows_dragging_item.
  split; [|split; [|split; [|split; [|split]]]].
  - intros Hi Hj.
    apply andb_true_iff in Hi as [Hi _]. apply andb_true_iff in Hj as [Hj _].
    exact (same_index_eq _ i j Hi Hj).
  - intros Hi. apply andb_true_iff in Hi as [Hi Hnot].
    split; [now apply negb_true_iff in Hnot|].
    intros Hnone. rewrite (Hover Hnone) in Hi. discriminate.
  - rewrite Hmirror. destruct (dragItemRef st) as [x|]; simpl.
    + rewrite Z.eqb_eq. split; congruence.
    + split; discriminate.
  - exact Hclass.
  - unfold drag_steps. now rewrite fold_left_app.
  - unfold drag_steps. now rewrite fold_left_app.
Qed.

Lemma drag_display_consistent_witness :
  shows_drop_indicator
    (drag_steps [DragStart 2; DragEnter 2; DragEnter 0] initial_App) 0 = true
  /\ shows_dragging_item
       (drag_steps [DragStart 2; DragEnter 2; DragEnter 0] initial_App) 0
     = false.
Proof.
  split; [reflexivity|].
  destruct (drag_display_consistent
              [DragStart 2; DragEnter 2; DragEnter 0] 0 0)
    as (_ & Hshown & _).
  apply Hshown. reflexivity.
Defined.

(* ===================================================================== *)
(** * Properties of the highlighter's tokens *)
(* ===================================================================== *)

Lemma exec_le r prev s n : exec r prev s = Some n -> (n <= length s)%nat.
Proof.
  unfold exec. destruct (matcher r prev s _); [|discriminate].
  intros H. injection H as <-. lia.
Qed.

Lemma pieces_fuel_text fuel r prev s :
  (length s < fuel)%nat ->
  concat (map piece_text (pieces_fuel fuel r prev s)) = s.
Proof.
  revert prev s. induction fuel as [|fuel IH]; intros prev s Hlen; [lia|].
  assert (Hcopy : concat (map piece_text
                            match s with
                            | [] => []
                            | c :: rest =>
                                Plain c :: pieces_fuel fuel r (Some c) rest
                            end) = s).
  { destruct s as [|c rest]; [reflexivity|]. cbn [map concat piece_text app].
    f_equal. apply IH. simpl in Hlen. lia. }
  cbn [pieces_fuel]. destruct (exec r prev s) as [[|n]|] eqn:E.
  - cbn [map concat piece_text app]. exact Hcopy.
  - apply exec_le in E.
    cbn [map concat piece_text]. rewrite IH.
    + apply firstn_skipn.
    + rewrite length_skipn. lia.
  - exact Hcopy.
Qed.

Lemma pieces_fuel_chars fuel r prev s p c :
  In p (pieces_fuel fuel r prev s) -> In c (piece_text p) -> In c s.
Proof.
  revert prev s. induction fuel as [|fuel IH]; intros prev s Hp Hc;
    [contradiction|].
  assert (Hcopy : In p match s with
                       | [] => []
                       | x :: rest =>
                           Plain x :: pieces_fuel fuel r (Some x) rest
                       end -> In c s).
  { destruct s as [|x rest]; [intros []|]. intros [<-|Hin].
    - destruct Hc as [<-|[]]. now left.
    - right. now apply (IH (Some x) rest). }
  cbn [pieces_fuel] in Hp. destruct (exec r prev s) as [[|n]|].
  - destruct Hp as [<-|Hp]; [contradiction | now apply Hcopy].
  - destruct Hp as [<-|Hp].
    + cbn [piece_text] in Hc.
      rewrite <- (firstn_skipn (S n) s). apply in_or_app. now left.
    + rewrite <- (firstn_skipn (S n) s). apply in_or_app. right.
      now apply (IH (nth_error s n) (skipn (S n) s)).
  - now apply Hcopy.
Qed.

Lemma token_class_cases text :
  In (token_class text)
     [js "json-key"; js "json-string"; js "json-boolean"; js "json-null";
      js "json-number"].
Proof.
  unfold token_class.
  repeat match goal with
         | |- context [if ?b then _ else _] => destruct b
         end; simpl; tauto.
Qed.

(** X26. The highlighter only wraps.  Its result is made of segments
    whose texts, taken together, are the escaped text, character for
    character and in order: a segment is written as its text alone, or as
    its text between the opening tag of a span with one of the five
    classes and the closing tag of a span.  No segment text holds a
    less-than or a greater-than sign, so the only markup of the result is
    these span tags.  The segments are the pieces of the scan, the matched
    ones wrapped with the class of the match; the empty text gives the
    empty text. *)
Theorem highlight_only_wraps (json : jsstring) :
  highlight [] = []
  /\ (exists segments : list (option jsstring * jsstring),
        concat (map snd segments) = escape_markup json
        /\ highlight json
           = concat
               (map (fun segment =>
                       match fst segment with
                       | None => snd segment
                       | Some class =>
                           js "<span class=" ++ [QUOTE] ++ class ++ [QUOTE]
                             ++ js ">" ++ snd segment ++ js "</span>"
                       end)
                  segments)
        /\ Forall (fun segment =>
                     ~ In LESS_THAN (snd segment)
                     /\ ~ In GREATER_THAN (snd segment)
                     /\ match fst segment with
                        | None => True
                        | Some class =>
                            In class
                               [js "json-key"; js "json-string";
                                js "json-boolean"; js "json-null";
                                js "json-number"]
                        end)
                  segments
        /\ segments
           = map (fun p =>
                    match p with
                    | Plain c => (None, [c])
                    | Matched text => (Some (token_class text), text)
                    end)
               (pieces token (escape_markup json)))
  /\ concat (map piece_text (pieces token (escape_markup json)))
     = escape_markup json
  /\ (forall p, In p (pieces token (escape_markup json)) ->
        ~ In LESS_THAN (piece_text p) /\ ~ In GREATER_THAN (piece_text p))
  /\ (forall text,
        In (token_class text)
           [js "json-key"; js "json-string"; js "json-boolean";
            js "json-null"; js "json-number"]).
Proof.
  assert (Htext : concat (map piece_text (pieces token (escape_markup json)))
                  = escape_markup json).
  { unfold pieces. apply pieces_fuel_text. lia. }
  assert (Hclean : forall p, In p (pieces token (escape_markup json)) ->
            ~ In LESS_THAN (piece_text p) /\ ~ In GREATER_THAN (piece_text p)).
  { intros p Hp. split; intros Hc.
    - apply (escape_markup_no_less_than json).
      exact (pieces_fuel_chars _ _ _ _ p _ Hp Hc).
    - apply (escape_markup_no_greater_than json).
      exact (pieces_fuel_chars _ _ _ _ p _ Hp Hc). }
  split; [reflexivity|]. split; [|split; [exact Htext|split;
                                           [exact Hclean|]]].
  - eexists. split; [|split; [|split; [|reflexivity]]].
    + rewrite map_map. etransitivity; [|exact Htext]. f_equal.
      apply map_ext. now intros [c|text].
    + rewrite map_map.
      transitivity (concat (map render_piece
                              (pieces token (escape_markup json)))).
      * destruct json; reflexivity.
      * f_equal. apply map_ext. intros [c|text]; [reflexivity|].
        cbn [render_piece fst snd]. reflexivity.
    + rewrite Forall_map. apply Forall_forall. intros p Hp.
      destruct (Hclean p Hp) as [Hl Hg].
      destruct p as [c|text]; cbn [fst snd piece_text] in *.
      * now repeat split.
      * repeat split; try assumption. apply token_class_cases.
  - apply token_class_cases.
Qed.

(** The angle brackets of a value are escaped and its number wrapped. *)
Example highlight_number_between_brackets :
  highlight (js "<1>")
  = js "&lt;<span class=" ++ [QUOTE] ++ js "json-number" ++ [QUOTE]
      ++ js ">1</span>&gt;".
Proof. reflexivity. Qed.

(** ** Matching *)

Lemma star_loop_run (step : Matcher) (good : jschar -> bool) w tail rounds
    prev (K : Continuation) out :
  (forall c s' p K', good c = true -> step p (c :: s') K' = K' (Some c) s') ->
  (forall p K', step p tail K' = None) ->
  Forall (fun c => good c = true) w ->
  (length w < rounds)%nat ->
  (forall p, K p tail = Some out) ->
  star_loop step rounds prev (w ++ tail) K = Some out.
Proof.
  intros Hstep Hstop Hw. revert rounds prev.
  induction Hw as [|c w Hc _ IH]; intros rounds prev Hrounds HK.
  - destruct rounds as [|rounds]; [simpl in Hrounds; lia|].
    cbn [star_loop app]. rewrite Hstop. apply HK.
  - destruct rounds as [|rounds]; [simpl in Hrounds; lia|].
    cbn [star_loop app]. rewrite (Hstep c _ _ _ Hc).
    replace (length (w ++ tail) <? length (c :: w ++ tail))%nat with true
      by (symmetry; apply Nat.ltb_lt; simpl; lia).
    rewrite IH; [reflexivity | simpl in Hrounds; lia | exact HK].
Qed.

Lemma star_loop_none (step : Matcher) (good : jschar -> bool) w tail rounds
    prev (K : Continuation) :
  (forall c s' p K', good c = true -> step p (c :: s') K' = K' (Some c) s') ->
  (forall p K', step p tail K' = None) ->
  Forall (fun c => good c = true) w ->
  (forall p w', Forall (fun c => good c = true) w' ->
                K p (w' ++ tail) = None) ->
  star_loop step rounds prev (w ++ tail) K = None.
Proof.
  intros Hstep Hstop Hw HK. revert rounds prev.
  induction Hw as [|c w Hc Hw IH]; intros rounds prev.
  - destruct rounds as [|rounds]; cbn [star_loop app].
    + apply (HK prev []). constructor.
    + rewrite Hstop. apply (HK prev []). constructor.
  - destruct rounds as [|rounds]; cbn [star_loop app].
    + apply (HK prev (c :: w)). now constructor.
    + rewrite (Hstep c _ _ _ Hc).
      replace (length (w ++ tail) <? length (c :: w ++ tail))%nat with true
        by (symmetry; apply Nat.ltb_lt; simpl; lia).
      rewrite IH. apply (HK prev (c :: w)). now constructor.
Qed.

Lemma string_character_plain c s' p (K : Continuation) :
  is_plain_string_char c = true ->
  matcher string_character p (c :: s') K = K (Some c) s'.
Proof.
  unfold is_plain_string_char. intros H.
  pose proof H as H'. apply andb_true_iff in H' as [Hb _].
  apply negb_true_iff in Hb.
  cbn [matcher string_character]. rewrite H, Hb.
  reflexivity.
Qed.

Lemma string_character_quote rest p (K : Continuation) :
  matcher string_character p (QUOTE :: rest) K = None.
Proof. reflexivity. Qed.

Lemma space_class_step c s' p (K : Continuation) :
  is_space c = true -> matcher (Class is_space) p (c :: s') K = K (Some c) s'.
Proof. intros H. cbn [matcher]. now rewrite H. Qed.

(** The colon part of a string token, on a text that does not go on with
    white space and a colon, does not match. *)
Lemma colon_part_fails rest p (K : Continuation) :
  no_colon_ahead rest ->
  matcher (Seq (Star (Class is_space)) (Char COLON)) p rest K = None.
Proof.
  intros (w & tail & -> & Hw & Htail). cbn [matcher].
  apply (star_loop_none _ is_space w tail).
  - intros c s' q K'. exact (space_class_step c s' q K').
  - intros q K'. destruct tail as [|c tail]; [reflexivity|].
    cbn [matcher]. now rewrite (proj1 Htail).
  - exact Hw.
  - intros q w' Hw'. destruct w' as [|x w'].
    + destruct tail as [|c tail]; [reflexivity|]. cbn [app].
      destruct Htail as [_ Hc].
      destruct (jschar_eqb c COLON) eqn:Ec; [|reflexivity].
      apply N.eqb_eq in Ec. contradiction.
    + cbn [app]. inversion Hw' as [|? ? Hx _]; subst.
      destruct (jschar_eqb x COLON) eqn:Ec; [|reflexivity].
      apply N.eqb_eq in Ec. subst x. discriminate.
Qed.

(** The colon part on white space and a colon matches up to the colon. *)
Lemma colon_part_matches w after p (K : Continuation) :
  Forall (fun c => is_space c = true) w ->
  matcher (Seq (Star (Class is_space)) (Char COLON)) p (w ++ COLON :: after) K
  = K (Some COLON) after.
Proof.
  intros Hw. cbn [matcher].
  destruct (K (Some COLON) after) as [out|] eqn:E.
  - apply (star_loop_run _ is_space w (COLON :: after)).
    + intros c s' q K'. exact (space_class_step c s' q K').
    + reflexivity.
    + exact Hw.
    + rewrite length_app. simpl. lia.
    + intros q. unfold jschar_eqb. now rewrite N.eqb_refl.
  - apply (star_loop_none _ is_space w (COLON :: after)).
    + intros c s' q K'. exact (space_class_step c s' q K').
    + reflexivity.
    + exact Hw.
    + intros q w' Hw'. destruct w' as [|x w']; cbn [app].
      * unfold jschar_eqb. now rewrite N.eqb_refl.
      * inversion Hw' as [|? ? Hx _]; subst.
        destruct (jschar_eqb x COLON) eqn:Ec; [|reflexivity].
        apply N.eqb_eq in Ec. subst x. discriminate.
Qed.

(** A string token on a literal of plain characters: the body is taken
    whole, then the closing quote, then the colon part if it is there. *)
Lemma string_token_literal body rest prev (K : Continuation) out :
  Forall (fun c => is_plain_string_char c = true) body ->
  (match matcher (Seq (Star (Class is_space)) (Char COLON)) (Some QUOTE) rest
           (fun p s' => if (length s' <? length rest)%nat then K p s'
                        else None)
   with
   | Some o => Some o
   | None => K (Some QUOTE) rest
   end = Some out) ->
  matcher string_token prev (QUOTE :: body ++ QUOTE :: rest) K = Some out.
Proof.
  intros Hbody Hout.
  change (matcher string_token prev (QUOTE :: body ++ QUOTE :: rest) K)
    with (star_loop (matcher string_character)
            (S (length (body ++ QUOTE :: rest))) (Some QUOTE)
            (body ++ QUOTE :: rest)
            (fun p s' =>
               matcher (Seq (Char QUOTE)
                          (Opt (Seq (Star (Class is_space)) (Char COLON))))
                 p s' K)).
  apply (star_loop_run _ is_plain_string_char body (QUOTE :: rest)).
  - intros c s' p K'. exact (string_character_plain c s' p K').
  - intros p K'. exact (string_character_quote rest p K').
  - exact Hbody.
  - rewrite length_app. simpl. lia.
  - intros p. exact Hout.
Qed.

Lemma exec_string_token prev s out :
  matcher string_token prev s (fun _ rest => Some rest) = Some out ->
  exec token prev s = Some (length s - length out)%nat.
Proof.
  intros H. unfold exec, token. cbn [matcher]. now rewrite H.
Qed.

Lemma rev_ends {A : Type} (text : list A) (c : A) :
  rev (text ++ [c]) = c :: rev text.
Proof. now rewrite rev_app_distr. Qed.

(** X27. At the opening quote of a string literal without backslash, the
    match is the literal up to its closing quote, and its class is
    json-string, when the text does not go on with white space and a
    colon; when it does, the match runs up to the colon and its class is
    json-key. *)
Theorem highlight_string_literals (body : jsstring) (prev : option jschar)
    (Hbody : Forall (fun c => is_plain_string_char c = true) body) :
  (forall rest, no_colon_ahead rest ->
     exec token prev (QUOTE :: body ++ QUOTE :: rest)
     = Some (length (QUOTE :: body ++ [QUOTE])))
  /\ token_class (QUOTE :: body ++ [QUOTE]) = js "json-string"
  /\ (forall w after, Forall (fun c => is_space c = true) w ->
        exec token prev (QUOTE :: body ++ QUOTE :: w ++ COLON :: after)
        = Some (length (QUOTE :: body ++ QUOTE :: w ++ [COLON])))
  /\ (forall w, token_class (QUOTE :: body ++ QUOTE :: w ++ [COLON])
                = js "json-key").
Proof.
  split; [|split; [|split]].
  - intros rest Hrest.
    rewrite (exec_string_token prev _ rest).
    + f_equal. cbn [length]. rewrite !length_app. cbn [length]. lia.
    + apply string_token_literal; [exact Hbody|].
      now rewrite colon_part_fails.
  - unfold token_class. cbn [starts_with_quote].
    change (jschar_eqb QUOTE QUOTE) with true. cbv iota.
    unfold ends_with_colon.
    change (QUOTE :: body ++ [QUOTE]) with ((QUOTE :: body) ++ [QUOTE]).
    rewrite rev_ends. reflexivity.
  - intros w after Hw.
    rewrite (exec_string_token prev _ after).
    + f_equal. cbn [length]. rewrite !length_app. cbn [length].
      rewrite !length_app. cbn [length]. lia.
    + apply string_token_literal; [exact Hbody|].
      rewrite colon_part_matches by exact Hw.
      replace (length after <? length (w ++ COLON :: after))%nat with true;
        [reflexivity|].
      symmetry. apply Nat.ltb_lt. rewrite length_app. simpl. lia.
  - intros w. unfold token_class. cbn [starts_with_quote].
    change (jschar_eqb QUOTE QUOTE) with true. cbv iota.
    unfold ends_with_colon.
    replace (QUOTE :: body ++ QUOTE :: w ++ [COLON])
      with ((QUOTE :: body ++ QUOTE :: w) ++ [COLON])
      by (cbn [app]; now rewrite <- app_assoc).
    rewrite rev_ends. reflexivity.
Qed.

Lemma highlight_string_literals_witness :
  exec token (Some COLON) (QUOTE :: js "ab" ++ QUOTE :: js ", 1")
    = Some 4%nat
  /\ exec token None (QUOTE :: js "key" ++ QUOTE :: js " " ++ COLON :: js " 1")
     = Some 7%nat.
Proof.
  destruct (highlight_string_literals (js "ab") (Some COLON))
    as (Hstring & _ & _ & _).
  { repeat constructor. }
  destruct (highlight_string_literals (js "key") None)
    as (_ & _ & Hkey & _).
  { repeat constructor. }
  split.
  - apply (Hstring (js ", 1")).
    exists [], (js ", 1"). split; [reflexivity|].
    split; [constructor|]. split; [reflexivity | discriminate].
  - apply (Hkey (js " ") (js " 1")). repeat constructor.
Defined.

Lemma exec_of_match r prev s rest :
  matcher r prev s (fun _ out => Some out) = Some rest ->
  exec r prev s = Some (length s - length rest)%nat.
Proof. intros H. unfold exec. now rewrite H. Qed.

Lemma exec_of_no_match r prev s :
  matcher r prev s (fun _ out => Some out) = None -> exec r prev s = None.
Proof. intros H. unfold exec. now rewrite H. Qed.

(** X28. The words true, false and null are matched, with the classes
    json-boolean, json-boolean and json-null, where they stand as words:
    not after a letter, a digit or an underscore, and not before one.
    Before such a character they are not matched at all. *)
Theorem highlight_words (prev : option jschar) (rest : jsstring)
    (Hbefore : is_word prev = false) :
  (is_word (hd_error rest) = false ->
   exec token prev (js "true" ++ rest) = Some 4%nat
   /\ exec token prev (js "false" ++ rest) = Some 5%nat
   /\ exec token prev (js "null" ++ rest) = Some 4%nat)
  /\ (is_word (hd_error rest) = true ->
      exec token prev (js "true" ++ rest) = None
      /\ exec token prev (js "false" ++ rest) = None
      /\ exec token prev (js "null" ++ rest) = None)
  /\ token_class (js "true") = js "json-boolean"
  /\ token_class (js "false") = js "json-boolean"
  /\ token_class (js "null") = js "json-null".
Proof.
  split; [|split; [|repeat split]].
  - intros Hafter. repeat split.
    + rewrite (exec_of_match token prev _ rest).
      * f_equal. rewrite length_app.
        set (n := length rest). vm_compute (length (js _)). lia.
      * cbn. rewrite Hbefore. cbn. now rewrite Hafter.
    + rewrite (exec_of_match token prev _ rest).
      * f_equal. rewrite length_app.
        set (n := length rest). vm_compute (length (js _)). lia.
      * cbn. rewrite Hbefore. cbn. now rewrite Hafter.
    + rewrite (exec_of_match token prev _ rest).
      * f_equal. rewrite length_app.
        set (n := length rest). vm_compute (length (js _)). lia.
      * cbn. rewrite Hbefore. cbn. now rewrite Hafter.
  - intros Hafter. repeat split; apply exec_of_no_match;
      cbn; rewrite Hbefore; cbn; now rewrite Hafter.
Qed.

Lemma highlight_words_witness :
  exec token (Some COLON) (js "true" ++ js ",") = Some 4%nat
  /\ exec token (Some COLON) (js "null" ++ js "s") = None.
Proof.
  destruct (highlight_words (Some COLON) (js ",") eq_refl)
    as (Hword & _ & _).
  destruct (highlight_words (Some COLON) (js "s") eq_refl)
    as (_ & Hnot & _).
  split; [apply Hword; reflexivity | apply Hnot; reflexivity].
Defined.

Lemma digit_class_step c s' p (K : Continuation) :
  is_digit c = true -> matcher (Class is_digit) p (c :: s') K = K (Some c) s'.
Proof. intros H. cbn [matcher]. now rewrite H. Qed.

Lemma is_digit_range c : is_digit c = true -> (48 <= c <= 57)%N.
Proof.
  unfold is_digit. intros H. apply andb_true_iff in H as [H1 H2].
  apply N.leb_le in H1, H2. lia.
Qed.

Lemma digit_is_not c d : is_digit c = true -> (d < 48 \/ 57 < d)%N ->
  jschar_eqb c d = false.
Proof.
  intros H Hd. apply is_digit_range in H.
  unfold jschar_eqb. apply N.eqb_neq. lia.
Qed.

Lemma string_token_needs_quote prev c s (K : Continuation) :
  jschar_eqb c QUOTE = false -> matcher string_token prev (c :: s) K = None.
Proof. intros H. unfold string_token. cbn [matcher]. now rewrite H. Qed.

Lemma word_token_needs_letter prev c s (K : Continuation) :
  jschar_eqb c 116%N = false -> jschar_eqb c 102%N = false ->
  jschar_eqb c 110%N = false ->
  matcher word_token prev (c :: s) K = None.
Proof.
  intros Ht Hf Hn. unfold word_token. cbn [matcher].
  destruct (xorb _ _); [|reflexivity].
  change (js "true") with (116%N :: js "rue").
  change (js "false") with (102%N :: js "alse").
  change (js "null") with (110%N :: js "ull").
  cbn [matcher Literal]. now rewrite Ht, Hf, Hn.
Qed.

Lemma number_token_digits prev d ds rest :
  is_digit d = true -> Forall (fun c => is_digit c = true) ds ->
  ends_number rest ->
  matcher number_token prev (d :: ds ++ rest) (fun _ out => Some out)
  = Some rest.
Proof.
  intros Hd Hds Hrest.
  pose proof (digit_is_not d 45%N Hd ltac:(lia)) as Hminus.
  unfold number_token. cbn [matcher Plus]. rewrite Hminus, Hd.
  apply (star_loop_run _ is_digit ds rest).
  - intros c s' q K'. exact (digit_class_step c s' q K').
  - intros q K'. destruct rest as [|c rest]; [reflexivity|].
    cbn [matcher]. now rewrite (proj1 Hrest).
  - exact Hds.
  - rewrite length_app. lia.
  - intros q. destruct rest as [|c rest]; [reflexivity|].
    destruct Hrest as (_ & Hpoint & He & HE).
    unfold jschar_eqb. rewrite Hpoint, He, HE. reflexivity.
Qed.

Lemma number_token_minus_digits prev d ds rest :
  is_digit d = true -> Forall (fun c => is_digit c = true) ds ->
  ends_number rest ->
  matcher number_token prev (MINUS :: d :: ds ++ rest) (fun _ out => Some out)
  = Some rest.
Proof.
  intros Hd Hds Hrest.
  unfold number_token. cbn [matcher Plus].
  change (jschar_eqb MINUS 45%N) with true. cbv iota.
  match goal with
  | |- context [(?a <? ?b)%nat] =>
      replace (a <? b)%nat with true
        by (symmetry; apply Nat.ltb_lt; cbn [length];
            apply Nat.lt_succ_diag_r)
  end.
  rewrite Hd.
  rewrite (star_loop_run _ is_digit ds rest _ _ _ rest); [reflexivity|..].
  - intros c s' q K' Hc. now rewrite Hc.
  - intros q K'. destruct rest as [|c rest]; [reflexivity|].
    now rewrite (proj1 Hrest).
  - exact Hds.
  - rewrite length_app. lia.
  - intros q. destruct rest as [|c rest]; [reflexivity|].
    destruct Hrest as (_ & Hpoint & He & HE).
    unfold jschar_eqb. rewrite Hpoint, He, HE. reflexivity.
Qed.

Lemma test_fuel_no_first_char fuel r prev s :
  (forall p c rest, In c s -> exec r p (c :: rest) = None) ->
  (forall p, exec r p [] = None) ->
  test_fuel fuel r prev s = false.
Proof.
  revert prev s. induction fuel as [|fuel IH]; intros prev s Hc Hnil.
  - destruct s as [|c rest]; cbn [test_fuel].
    + now rewrite Hnil.
    + rewrite Hc by now left. reflexivity.
  - destruct s as [|c rest]; cbn [test_fuel].
    + now rewrite Hnil.
    + rewrite Hc by now left. apply IH; [|exact Hnil].
      intros p x r' Hx. apply Hc. now right.
Qed.

Lemma token_class_number text :
  Forall (fun c => is_digit c = true \/ c = MINUS) text ->
  token_class text = js "json-number".
Proof.
  intros Hall. unfold token_class.
  assert (Hstart : starts_with_quote text = false).
  { destruct text as [|c text]; [reflexivity|]. cbn [starts_with_quote].
    inversion Hall as [|? ? [Hc| ->] _]; subst; [|reflexivity].
    apply digit_is_not; [exact Hc | unfold QUOTE; lia]. }
  rewrite Hstart.
  assert (Hchar : forall c, In c text ->
            jschar_eqb c 116%N = false /\ jschar_eqb c 102%N = false
            /\ jschar_eqb c 110%N = false).
  { intros c Hc. rewrite Forall_forall in Hall.
    destruct (Hall c Hc) as [Hd| ->]; [|now repeat split].
    repeat split; apply digit_is_not; try exact Hd; lia. }
  unfold test. rewrite !test_fuel_no_first_char; try reflexivity.
  - intros p c rest Hc. destruct (Hchar c Hc) as (_ & _ & Hn).
    unfold exec. cbn. now rewrite Hn.
  - intros p c rest Hc. destruct (Hchar c Hc) as (Ht & Hf & _).
    unfold exec. cbn. now rewrite Ht, Hf.
Qed.

(** X29. A number written with digits alone, with or without a minus
    sign in front, is matched whole, with the class json-number, where the
    text after it is empty or begins with a character other than a digit,
    the point and the letter e. *)
Theorem highlight_integers (d : jschar) (ds rest : jsstring)
    (prev : option jschar)
    (Hd : is_digit d = true)
    (Hds : Forall (fun c => is_digit c = true) ds)
    (Hrest : ends_number rest) :
  exec token prev (d :: ds ++ rest) = Some (length (d :: ds))
  /\ exec token prev (MINUS :: d :: ds ++ rest)
     = Some (length (MINUS :: d :: ds))
  /\ token_class (d :: ds) = js "json-number"
  /\ token_class (MINUS :: d :: ds) = js "json-number".
Proof.
  split; [|split; [|split]].
  - rewrite (exec_of_match token prev _ rest).
    + f_equal. cbn [length]. rewrite length_app. lia.
    + unfold token. cbn [matcher].
      rewrite string_token_needs_quote
        by (apply digit_is_not; [exact Hd | unfold QUOTE; lia]).
      rewrite word_token_needs_letter
        by (apply digit_is_not; [exact Hd | lia]).
      now apply number_token_digits.
  - rewrite (exec_of_match token prev _ rest).
    + f_equal. cbn [length]. rewrite length_app. lia.
    + unfold token. cbn [matcher].
      rewrite string_token_needs_quote by reflexivity.
      rewrite word_token_needs_letter by reflexivity.
      now apply number_token_minus_digits.
  - apply token_class_number. constructor; [now left|].
    apply Forall_impl with (2 := Hds). intros c Hc. now left.
  - apply token_class_number. constructor; [now right|].
    constructor; [now left|].
    apply Forall_impl with (2 := Hds). intros c Hc. now left.
Qed.

Lemma highlight_integers_witness :
  exec token (Some COLON) (js "2024" ++ js ",") = Some 4%nat
  /\ token_class (js "-7") = js "json-number".
Proof.
  split.
  - apply (highlight_integers 50%N (js "024") (js ",") (Some COLON)).
    + reflexivity.
    + repeat constructor.
    + repeat split.
  - apply (highlight_integers 55%N [] [] None).
    + reflexivity.
    + constructor.
    + exact I.
Defined.

(* ===================================================================== *)
(** * A drop and the drop back *)
(* ===================================================================== *)

Lemma insert_at_remove_at {A : Type} (i : nat) (x : A) (l : list A) :
  nth_error l i = Some x -> insert_at i x (remove_at i l) = l.
Proof.
  intros H. unfold insert_at, remove_at.
  assert (Hi : (i < length l)%nat) by (apply nth_error_Some; congruence).
  assert (Hlen : length (firstn i l) = i) by (rewrite length_firstn; lia).
  rewrite firstn_app, skipn_app, Hlen, Nat.sub_diag.
  rewrite (firstn_all2 (n := i) (firstn i l)) by lia.
  rewrite (skipn_all2 (n := i) (firstn i l)) by lia.
  cbn [firstn skipn app]. rewrite app_nil_r.
  symmetry. now apply nth_error_decompose.
Qed.

(** X30. A drop is undone by the drop back: after dragging the record at
    one index of the list to another index, dragging the record at that
    index to the first one gives the list as it was. *)
Theorem handleDrop_back_restores (prev : list Snippet) (source target : Z)
    (Hsource : 0 <= source < Z.of_nat (length prev))
    (Htarget : 0 <= target < Z.of_nat (length prev)) :
  exists after,
    handleDrop (Some source) target prev = map Some after
    /\ length after = length prev
    /\ handleDrop (Some target) source after = map Some prev.
Proof.
  destruct (Z.eq_dec source target) as [->|Hne].
  { exists prev. unfold handleDrop. rewrite Z.eqb_refl. now repeat split. }
  assert (Hs : source_position prev source = Z.to_nat source).
  { unfold source_position. now rewrite actual_start_in_range by lia. }
  assert (Ht : target_position prev target = Z.to_nat target).
  { unfold target_position. now rewrite actual_start_in_range by lia. }
  destruct (nth_error prev (Z.to_nat source)) as [moved|] eqn:Hnth.
  2:{ apply nth_error_None in Hnth. lia. }
  pose proof (handleDrop_moves prev source target moved Hne) as Hdrop.
  rewrite Hs, Ht in Hdrop. specialize (Hdrop Hnth).
  set (shorter := remove_at (Z.to_nat source) prev) in *.
  assert (Hshort : length shorter = pred (length prev)).
  { apply length_remove_at. lia. }
  set (after := insert_at (Z.to_nat target) moved shorter) in *.
  assert (Hlen : length after = length prev).
  { unfold after. rewrite length_insert_at. lia. }
  exists after. split; [exact Hdrop|]. split; [exact Hlen|].
  assert (Hs' : source_position after target = Z.to_nat target).
  { unfold source_position. now rewrite actual_start_in_range by lia. }
  assert (Ht' : target_position after source = Z.to_nat source).
  { unfold target_position. now rewrite actual_start_in_range by lia. }
  assert (Hnth' : nth_error after (Z.to_nat target) = Some moved).
  { apply nth_error_insert_at. lia. }
  pose proof (handleDrop_moves after target source moved
                ltac:(congruence)) as Hback.
  rewrite Hs', Ht' in Hback. rewrite (Hback Hnth'). f_equal.
  unfold after. rewrite remove_at_insert_at by lia.
  now apply insert_at_remove_at.
Qed.

Lemma handleDrop_back_restores_witness :
  exists after,
    handleDrop (Some 0) 2 [newSnippet 1 verse; newSnippet 2 lesson;
                           newSnippet 3 prayer]
      = map Some after
    /\ length after = 3%nat
    /\ handleDrop (Some 2) 0 after
       = map Some [newSnippet 1 verse; newSnippet 2 lesson;
                   newSnippet 3 prayer].
Proof.
  apply (handleDrop_back_restores
           [newSnippet 1 verse; newSnippet 2 lesson; newSnippet 3 prayer]
           0 2); simpl; lia.
Defined.
